(** * Implied volatility and Greeks of option_data: a shallow embedding

    The development follows three source files of the repository:
    - [compute_greeks.py]: the Black-Scholes price [_bs_price], the bracketed
      per-row solver [_solve_iv], its chunked driver [_solve_iv_chunk], the
      fan-out and fan-in of [main], and [compute_greeks_vectorized];
    - [VI_data_extraction/calculate_vi_2024.py]: the vectorized Newton-Raphson
      solver [vectorized_iv] and the row filter of its [main];
    - [VI_data_extraction/VI.py]: the scalar Newton solver [implied_volatility].

    Numbers are IEEE 754 binary64 values, Rocq's primitive [float], which is
    what a Python float and a numpy float64 are: nan, the infinities, signed
    zeros and the comparisons that are false on nan are those of the code.
    numpy arrays are lists. The functions the code takes from numpy and scipy
    (log, exp, the normal distribution, the root-finder) are parameters of the
    development: every theorem holds for all of them. *)

From Stdlib Require Import List Bool Arith ZArith Lia Permutation.
From Stdlib Require Import Floats.
Import ListNotations.

#[local] Set Warnings "-inexact-float".
#[local] Open Scope float_scope.

(** ** Exceptions and results *)

(** The exceptions a row solve can meet. scipy's root-finders raise
    [ValueError] (no sign change between the bounds, or a nan function value)
    and [RuntimeError] (no convergence within [maxiter]); [OtherError] stands
    for every other Python exception class. *)
Inductive exn : Type :=
| ValueError
| RuntimeError
| OtherError.

Inductive outcome (A : Type) : Type :=
| Ret (a : A)
| Raise (e : exn).
Arguments Ret {A} a.
Arguments Raise {A} e.

Definition bind {A B : Type} (c : outcome A) (k : A -> outcome B) : outcome B :=
  match c with
  | Ret a => k a
  | Raise e => Raise e
  end.

Notation "x <- c ;; k" := (bind c (fun x => k))
  (at level 61, c at next level, right associativity).

(** [try c except (ValueError, RuntimeError): return v] *)
Definition numerical_failure (e : exn) : bool :=
  match e with
  | ValueError | RuntimeError => true
  | OtherError => false
  end.

Definition try_except {A : Type} (c : outcome A) (v : A) : outcome A :=
  match c with
  | Ret a => Ret a
  | Raise e => if numerical_failure e then Ret v else Raise e
  end.

Fixpoint mapM {A B : Type} (f : A -> outcome B) (l : list A) : outcome (list B) :=
  match l with
  | [] => Ret []
  | a :: l' => b <- f a ;; bs <- mapM f l' ;; Ret (b :: bs)
  end.

(** ** The numerical libraries *)

(** [numpy.log], [numpy.exp], [scipy.stats.norm.cdf] and
    [scipy.stats.norm.pdf] on one float64. [numpy.sqrt] is the correctly
    rounded IEEE square root, the primitive [sqrt]. *)
Class MathLib : Type := {
  np_log : float -> float;
  np_exp : float -> float;
  norm_cdf : float -> float;
  norm_pdf : float -> float
}.

(** [scipy.optimize.brentq(f, a, b, maxiter=_, xtol=_)]. *)
Class RootFinder : Type := {
  brentq : (float -> float) -> float -> float -> nat -> float -> outcome float
}.

(** [np.isfinite] *)
Definition isfinite (x : float) : bool := negb (is_nan x) && negb (is_infinity x).

(** [x ** 2]: numpy squares an array by one multiplication; the power of a
    Python float ([sigma**2] in [_bs_price] and in VI.py) is read the same
    way. *)
Definition sq (x : float) : float := x * x.

(** ** numpy arrays as lists *)

Section Arrays.
Context {A : Type}.

(** [xs[m]] for a boolean mask [m]: the entries of [xs] where [m] is true,
    in order. (numpy raises IndexError when the lengths differ; every mask
    below is built with the length of the array it selects from.) *)
Fixpoint mask_get (m : list bool) (xs : list A) : list A :=
  match m, xs with
  | b :: m', x :: xs' => if b then x :: mask_get m' xs' else mask_get m' xs'
  | _, _ => []
  end.

(** [xs[idx]] for an integer index array; [d] stands where numpy would
    raise IndexError, which the index arrays below never reach. *)
Definition take_idx (d : A) (xs : list A) (idx : list nat) : list A :=
  map (fun i => nth i xs d) idx.

(** [xs[i] = v]; out of range numpy raises IndexError, and the indices
    written below always come from [np.where] over an array of the same
    length, see [where_lt]. Here an out-of-range write leaves [xs] alone. *)
Fixpoint set_nth (i : nat) (v : A) (xs : list A) {struct xs} : list A :=
  match xs, i with
  | [], _ => []
  | _ :: xs', O => v :: xs'
  | x :: xs', S i' => x :: set_nth i' v xs'
  end.

(** [xs[idx] = vs], entry by entry, left to right. (numpy raises ValueError
    when [vs] has another length than [idx]; below the two are always built
    from the same index array.) *)
Fixpoint put_idx (xs : list A) (idx : list nat) (vs : list A) : list A :=
  match idx, vs with
  | i :: idx', v :: vs' => put_idx (set_nth i v xs) idx' vs'
  | _, _ => xs
  end.

(** [xs[idx] = v] for a scalar [v]. *)
Definition put_const (xs : list A) (idx : list nat) (v : A) : list A :=
  put_idx xs idx (map (fun _ => v) idx).
End Arrays.

(** [np.where(m)[0]]: the positions where [m] is true, increasing. *)
Definition where_ (m : list bool) : list nat := mask_get m (seq 0 (length m)).

(** [m.any()] *)
Definition any (m : list bool) : bool := existsb (fun b => b) m.

(** Elementwise binary operations and selection. *)
Definition vmap2 {A B C : Type} (op : A -> B -> C) (xs : list A) (ys : list B) : list C :=
  map (fun p => op (fst p) (snd p)) (combine xs ys).

(** [np.where(c, a, b)] *)
Definition vwhere {A : Type} (c : list bool) (a b : list A) : list A :=
  vmap2 (fun (ci : bool) (p : A * A) => if ci then fst p else snd p) c (combine a b).

Definition memb (i : nat) (l : list nat) : bool := existsb (Nat.eqb i) l.

(** Elementwise arithmetic on float arrays, and a scalar broadcast against an
    array. *)
Definition vadd : list float -> list float -> list float := vmap2 PrimFloat.add.
Definition vsub : list float -> list float -> list float := vmap2 PrimFloat.sub.
Definition vmul : list float -> list float -> list float := vmap2 PrimFloat.mul.
Definition vdiv : list float -> list float -> list float := vmap2 PrimFloat.div.
Definition vneg : list float -> list float := map PrimFloat.opp.
Definition sadd (c : float) : list float -> list float := map (fun x => c + x).
Definition smul (c : float) : list float -> list float := map (fun x => c * x).

Declare Scope vec_scope.
Delimit Scope vec_scope with vec.
Notation "a [+] b" := (vadd a b) (at level 50, left associativity) : vec_scope.
Notation "a [-] b" := (vsub a b) (at level 50, left associativity) : vec_scope.
Notation "a [*] b" := (vmul a b) (at level 40, left associativity) : vec_scope.
Notation "a [/] b" := (vdiv a b) (at level 40, left associativity) : vec_scope.
Notation "c [:+] a" := (sadd c a) (at level 50, left associativity) : vec_scope.
Notation "c [:*] a" := (smul c a) (at level 40, left associativity) : vec_scope.

(** ** The vectorized Newton-Raphson solver: calculate_vi_2024.py *)

(** The three arrays the loop of [vectorized_iv] mutates. *)
Record nr_state : Type := {
  st_sigma : list float;
  st_result : list float;
  st_active : list bool
}.

Section Newton.
Context {M : MathLib}.
Variables (market_price S K T : list float) (r : float) (is_call : list bool).
Variable tol : float.

(** The body of [for iteration in range(max_iter)], after the [break] test. *)
Definition nr_iteration (st : nr_state) : nr_state :=
  let sigma := st_sigma st in
  let result := st_result st in
  let active := st_active st in
  let s := mask_get active sigma in
  let mp := mask_get active market_price in
  let s_price := mask_get active S in
  let k := mask_get active K in
  let t := mask_get active T in
  let call := mask_get active is_call in
  let sqrt_t := map sqrt t in
  let d1 := ((map np_log (s_price [/] k) [+] (r [:+] 0.5 [:*] map sq s) [*] t)
             [/] (s [*] sqrt_t))%vec in
  let d2 := (d1 [-] s [*] sqrt_t)%vec in
  let call_price :=
    (s_price [*] map norm_cdf d1 [-] k [*] map np_exp ((- r) [:*] t) [*] map norm_cdf d2)%vec in
  let put_price :=
    (k [*] map np_exp ((- r) [:*] t) [*] map norm_cdf (vneg d2)
     [-] s_price [*] map norm_cdf (vneg d1))%vec in
  let bs_price := vwhere call call_price put_price in
  let vega := (s_price [*] map norm_pdf d1 [*] sqrt_t)%vec in
  let diff := (bs_price [-] mp)%vec in
  let converged := map (fun x => abs x <? tol) diff in
  let bad_vega := map (fun v => v <? 1e-12) vega in
  let active_indices := where_ active in
  let converged_idx := mask_get converged active_indices in
  let result := put_idx result converged_idx (take_idx nan sigma converged_idx) in
  let failed_idx := mask_get (vmap2 andb bad_vega (map negb converged)) active_indices in
  let still_going := vmap2 andb (map negb converged) (map negb bad_vega) in
  let update_idx := mask_get still_going active_indices in
  let sigma :=
    put_idx sigma update_idx
      (take_idx nan sigma update_idx
       [-] mask_get still_going diff [/] mask_get still_going vega)%vec in
  let bad_sigma :=
    vmap2 orb (map (fun x => x <=? 0) (take_idx nan sigma update_idx))
              (map (fun x => 10 <? x) (take_idx nan sigma update_idx)) in
  let bad_sigma_idx := mask_get bad_sigma update_idx in
  let sigma := put_const sigma bad_sigma_idx nan in
  let active := put_const active converged_idx false in
  let active := put_const active failed_idx false in
  let active := put_const active bad_sigma_idx false in
  {| st_sigma := sigma; st_result := result; st_active := active |}.

(** [for iteration in range(max_iter): if not active.any(): break; ...] *)
Fixpoint nr_loop (max_iter : nat) (st : nr_state) : nr_state :=
  match max_iter with
  | O => st
  | Datatypes.S rest =>
      if negb (any (st_active st)) then st else nr_loop rest (nr_iteration st)
  end.

(** The arrays before the first iteration: sigma 0.3, result nan, all rows
    active. *)
Definition nr_init : nr_state :=
  let n := length market_price in
  {| st_sigma := repeat 0.3 n; st_result := repeat nan n; st_active := repeat true n |}.

Definition vectorized_iv_state (max_iter : nat) : nr_state := nr_loop max_iter nr_init.

Definition vectorized_iv (max_iter : nat) : list float :=
  st_result (vectorized_iv_state max_iter).

(** The states at the start of each executed iteration and the last one:
    the run of the loop, oldest first. *)
Fixpoint nr_trace (max_iter : nat) (st : nr_state) : list nr_state :=
  match max_iter with
  | O => [st]
  | Datatypes.S rest =>
      if negb (any (st_active st)) then [st] else st :: nr_trace rest (nr_iteration st)
  end.

(** The rows an iteration prices: the positions [np.where(active)[0]] of the
    state it starts from. *)
Definition priced_rows (st : nr_state) : list nat := where_ (st_active st).
End Newton.

(** One row of the Newton solver as the specification words it: the row's
    trial sigma, its entry of the result array and whether it is active. *)
Record nr_row : Type := {
  row_sigma : float;
  row_result : float;
  row_active : bool
}.

Section NewtonRow.
Context {M : MathLib}.

Definition nr_d1 (S K T r s : float) : float :=
  (np_log (S / K) + (r + 0.5 * sq s) * T) / (s * sqrt T).

Definition nr_d2 (S K T r s : float) : float := nr_d1 S K T r s - s * sqrt T.

Definition nr_price (S K T r s : float) (call : bool) : float :=
  if call
  then S * norm_cdf (nr_d1 S K T r s) - K * np_exp (- r * T) * norm_cdf (nr_d2 S K T r s)
  else K * np_exp (- r * T) * norm_cdf (- nr_d2 S K T r s) - S * norm_cdf (- nr_d1 S K T r s).

Definition nr_vega (S K T r s : float) : float := S * norm_pdf (nr_d1 S K T r s) * sqrt T.

Definition nr_diff (mp S K T r s : float) (call : bool) : float := nr_price S K T r s call - mp.

(** Steps 3 to 6 of the specification for one row: converged, then
    degenerate vega, then the Newton update, then the divergence guard. An
    inactive row is left as it is. *)
Definition spec_row_step (mp S K T r : float) (call : bool) (tol : float) (row : nr_row) : nr_row :=
  if negb (row_active row) then row
  else
    let s := row_sigma row in
    let diff := nr_diff mp S K T r s call in
    let vega := nr_vega S K T r s in
    if abs diff <? tol then
      {| row_sigma := s; row_result := s; row_active := false |}
    else if vega <? 1e-12 then
      {| row_sigma := s; row_result := row_result row; row_active := false |}
    else
      let s' := s - diff / vega in
      if (s' <=? 0) || (10 <? s') then
        {| row_sigma := nan; row_result := row_result row; row_active := false |}
      else
        {| row_sigma := s'; row_result := row_result row; row_active := true |}.
End NewtonRow.

(** Row [i] of a loop state. *)
Definition row_at (st : nr_state) (i : nat) : nr_row :=
  {| row_sigma := nth i (st_sigma st) nan;
     row_result := nth i (st_result st) nan;
     row_active := nth i (st_active st) false |}.

(** *** The row filter of [main] in calculate_vi_2024.py *)

Record vi_record : Type := {
  rec_T : float;
  rec_ClsPric : float;
  rec_UndrlygPric : float;
  rec_StrkPric : float;
  rec_is_call : bool
}.

(** [valid = (T > 0) & (ClsPric > 0) & (UndrlygPric > 0) & (StrkPric > 0)] *)
Definition vi_valid (x : vi_record) : bool :=
  (0 <? rec_T x) && (0 <? rec_ClsPric x) && (0 <? rec_UndrlygPric x) && (0 <? rec_StrkPric x).

(** [df_2024 = df_2024[valid]] and the call of the solver on its columns. *)
Definition vi_main_rows (df : list vi_record) : list vi_record := filter vi_valid df.


(** ** The scalar Newton solver: VI.py *)

Section ScalarNewton.
Context {M : MathLib}.
Variables (market_price S K T r : float) (is_call : bool) (tol : float).

(** The loop of [implied_volatility]; [is_call] is [option_type == "call"].
    The arguments are Python numbers, so [S/K] raises ZeroDivisionError, an
    [OtherError], when [K] is zero. After [max_iter] rounds without
    [return], the function raises ValueError("IV did not converge"). *)
Fixpoint iv_loop (max_iter : nat) (sigma : float) : outcome float :=
  match max_iter with
  | O => Raise ValueError
  | Datatypes.S rest =>
      if K =? 0 then Raise OtherError
      else
        let d1 := (np_log (S / K) + (r + 0.5 * sq sigma) * T) / (sigma * sqrt T) in
        let d2 := d1 - sigma * sqrt T in
        let price :=
          if is_call
          then S * norm_cdf d1 - K * np_exp (- r * T) * norm_cdf d2
          else K * np_exp (- r * T) * norm_cdf (- d2) - S * norm_cdf (- d1) in
        let vega := S * norm_pdf d1 * sqrt T in
        let diff := price - market_price in
        if abs diff <? tol then Ret sigma
        else iv_loop rest (sigma - diff / vega)
  end.

Definition implied_volatility (max_iter : nat) : outcome float := iv_loop max_iter 0.3.
End ScalarNewton.

(** ** The bracketed per-row solver: compute_greeks.py *)

Definition RISK_FREE_RATE : float := 0.068.
Definition DIVIDEND_YIELD : float := 0.
Definition IV_LOWER : float := 0.001.
Definition IV_UPPER : float := 5.

(** The argument tuple [(S, K, T, r, q, mkt_price, is_call)] of one row. *)
Definition iv_args : Type := (float * float * float * float * float * float * bool)%type.

Definition arg_S (a : iv_args) : float := let '(x, _, _, _, _, _, _) := a in x.
Definition arg_K (a : iv_args) : float := let '(_, x, _, _, _, _, _) := a in x.
Definition arg_T (a : iv_args) : float := let '(_, _, x, _, _, _, _) := a in x.
Definition arg_r (a : iv_args) : float := let '(_, _, _, x, _, _, _) := a in x.
Definition arg_q (a : iv_args) : float := let '(_, _, _, _, x, _, _) := a in x.
Definition arg_mkt_price (a : iv_args) : float := let '(_, _, _, _, _, x, _) := a in x.
Definition arg_is_call (a : iv_args) : bool := let '(_, _, _, _, _, _, x) := a in x.

Section Bracketed.
Context {M : MathLib} {R : RootFinder}.

Definition _bs_price (S K T r q sigma : float) (is_call : bool) : float :=
  let sqrt_T := sqrt T in
  let d1 := (np_log (S / K) + (r - q + 0.5 * sq sigma) * T) / (sigma * sqrt_T) in
  let d2 := d1 - sigma * sqrt_T in
  if is_call
  then S * np_exp (- q * T) * norm_cdf d1 - K * np_exp (- r * T) * norm_cdf d2
  else K * np_exp (- r * T) * norm_cdf (- d2) - S * np_exp (- q * T) * norm_cdf (- d1).

(** [lambda sig: _bs_price(S, K, T, r, q, sig, is_call) - mkt_price] *)
Definition price_diff (args : iv_args) (sig : float) : float :=
  let S := arg_S args in
  let K := arg_K args in
  let T := arg_T args in
  let r := arg_r args in
  let q := arg_q args in
  let mkt_price := arg_mkt_price args in
  let is_call := arg_is_call args in
  _bs_price S K T r q sig is_call - mkt_price.

(** [T <= 0 or mkt_price <= 0 or S <= 0 or K <= 0] *)
Definition invalid_geometry (args : iv_args) : bool :=
  let S := arg_S args in
  let K := arg_K args in
  let T := arg_T args in
  let r := arg_r args in
  let q := arg_q args in
  let mkt_price := arg_mkt_price args in
  let is_call := arg_is_call args in
  (T <=? 0) || (mkt_price <=? 0) || (S <=? 0) || (K <=? 0).

Definition _solve_iv (args : iv_args) : outcome float :=
  let S := arg_S args in
  let K := arg_K args in
  let T := arg_T args in
  let r := arg_r args in
  let q := arg_q args in
  let mkt_price := arg_mkt_price args in
  let is_call := arg_is_call args in
  if (T <=? 0) || (mkt_price <=? 0) || (S <=? 0) || (K <=? 0) then Ret nan
  else
    try_except
      (let f_lo := _bs_price S K T r q IV_LOWER is_call - mkt_price in
       let f_hi := _bs_price S K T r q IV_UPPER is_call - mkt_price in
       if 0 <? f_lo * f_hi then Ret nan
       else
         brentq (fun sig => _bs_price S K T r q sig is_call - mkt_price)
                IV_LOWER IV_UPPER 100 1e-8)
      nan.

(** [for args in chunk_args: results.append(_solve_iv(args))] *)
Definition _solve_iv_chunk (chunk_args : list iv_args) : outcome (list float) :=
  mapM _solve_iv chunk_args.
End Bracketed.

(** ** The worker orchestrator: [main] of compute_greeks.py *)

(** [range(0, n, c)]: a zero step raises ValueError. *)
Definition py_range (n c : nat) : outcome (list nat) :=
  if Nat.eqb c 0 then Raise ValueError
  else Ret (map (fun j => (j * c)%nat) (seq 0 ((n + c - 1) / c))).

(** [[all_args[i:i+c] for i in range(0, len(all_args), c)]] *)
Definition chunks_of {A : Type} (c : nat) (all_args : list A) : outcome (list (list A)) :=
  starts <- py_range (length all_args) c ;;
  Ret (map (fun i => firstn c (skipn i all_args)) starts).

(** The chunk list of [main] for a nonzero chunk size. *)
Definition chunks_list {A : Type} (c : nat) (all_args : list A) : list (list A) :=
  map (fun i => firstn c (skipn i all_args))
      (map (fun j => (j * c)%nat) (seq 0 ((length all_args + c - 1) / c))).

(** [arr[start:stop] = vs] on a numpy array: the slice is clipped to the
    array; [vs] must have the length of the slice, or one entry that is
    broadcast; anything else raises ValueError. *)
Definition slice_assign {A : Type} (arr : list A) (start stop : nat) (vs : list A)
  : outcome (list A) :=
  let n := length arr in
  let a := Nat.min start n in
  let b := Nat.max a (Nat.min stop n) in
  if Nat.eqb (length vs) (b - a) then Ret (firstn a arr ++ vs ++ skipn b arr)
  else
    match vs with
    | [v] => Ret (firstn a arr ++ repeat v (b - a) ++ skipn b arr)
    | _ => Raise ValueError
    end.

Section Pool.
Context {A B : Type}.

(** The tasks of a pool finish in some order [sched], a list of task
    indices; each finished task leaves its index and value. *)
Definition pool_finished (sched : list nat) (f : A -> B) (tasks : list A) : list (nat * B) :=
  flat_map (fun i => match nth_error tasks i with
                     | Some t => [(i, f t)]
                     | None => []
                     end) sched.

Fixpoint finished_value (done : list (nat * B)) (i : nat) : option B :=
  match done with
  | [] => None
  | (j, b) :: done' => if Nat.eqb i j then Some b else finished_value done' i
  end.

(** The iterator of [imap] hands the values back by increasing task index,
    whatever the order they finished in; it has nothing more to hand back
    when the next index never finished. *)
Fixpoint imap_yield (done : list (nat * B)) (next count : nat) : list B :=
  match count with
  | O => []
  | Datatypes.S count' =>
      match finished_value done next with
      | Some b => b :: imap_yield done (Datatypes.S next) count'
      | None => []
      end
  end.

(** [Pool(W).imap(f, tasks)] under the completion order [sched]. A pool of
    no worker is refused with ValueError. *)
Definition pool_imap (W : nat) (sched : list nat) (f : A -> B) (tasks : list A)
  : outcome (list B) :=
  if Nat.eqb W 0 then Raise ValueError
  else Ret (imap_yield (pool_finished sched f tasks) 0 (length tasks)).
End Pool.

Section Orchestrator.
Context {M : MathLib} {R : RootFinder}.

(** [for i, result in enumerate(...): iv_arr[i*c : i*c + len(result)] = result];
    [i] counts from the index of the first result left. An exception of a
    worker is raised again when its result is reached. *)
Fixpoint place_results (c i : nat) (results : list (outcome (list float)))
  (iv_arr : list float) : outcome (list float) :=
  match results with
  | [] => Ret iv_arr
  | res :: results' =>
      result <- res ;;
      let start_idx := (i * c)%nat in
      let end_idx := (start_idx + length result)%nat in
      iv_arr' <- slice_assign iv_arr start_idx end_idx result ;;
      place_results c (Datatypes.S i) results' iv_arr'
  end.

(** The IV stage of [main]: [SUB_CHUNK] rows per task (5000 in the source),
    [W] workers ([N_WORKERS]), completion order [sched]. *)
Definition main_iv (SUB_CHUNK W : nat) (sched : list nat) (all_args : list iv_args)
  : outcome (list float) :=
  chunks <- chunks_of SUB_CHUNK all_args ;;
  let iv_arr := repeat nan (length all_args) in
  results <- pool_imap W sched _solve_iv_chunk chunks ;;
  place_results SUB_CHUNK 0 results iv_arr.

(** The single-process solve: the per-row solver over the whole list. *)
Definition sequential_iv (all_args : list iv_args) : outcome (list float) :=
  mapM _solve_iv all_args.
End Orchestrator.

(** ** The vectorized Greeks: compute_greeks.py *)

(** Array against scalar. *)
Definition vdivs (a : list float) (c : float) : list float := map (fun x => x / c) a.
Definition vsubs (a : list float) (c : float) : list float := map (fun x => x - c) a.
Notation "a [/:] c" := (vdivs a c) (at level 40, left associativity) : vec_scope.
Notation "a [-:] c" := (vsubs a c) (at level 50, left associativity) : vec_scope.

(** [xs[m] = vs] for a boolean mask: numpy assigns at [m.nonzero()]. *)
Definition mask_put {A : Type} (xs : list A) (m : list bool) (vs : list A) : list A :=
  put_idx xs (where_ m) vs.

Record greeks : Type := {
  g_delta : list float;
  g_gamma : list float;
  g_vega : list float;
  g_theta : list float;
  g_rho : list float
}.

Section Greeks.
Context {M : MathLib}.

Definition compute_greeks_vectorized (S K T : list float) (r q : float)
  (sigma : list float) (is_call : list bool) : greeks :=
  let valid :=
    vmap2 andb (vmap2 andb (vmap2 andb (vmap2 andb
      (map isfinite sigma) (map (fun x => 0 <? x) T)) (map (fun x => 0 <? x) S))
      (map (fun x => 0 <? x) K)) (map (fun x => 0 <? x) sigma) in
  let delta := repeat nan (length sigma) in
  let gamma := repeat nan (length sigma) in
  let vega := repeat nan (length sigma) in
  let theta := repeat nan (length sigma) in
  let rho := repeat nan (length sigma) in
  if negb (any valid) then
    {| g_delta := delta; g_gamma := gamma; g_vega := vega; g_theta := theta; g_rho := rho |}
  else
    let Sv := mask_get valid S in
    let Kv := mask_get valid K in
    let Tv := mask_get valid T in
    let sigv := mask_get valid sigma in
    let is_call_v := mask_get valid is_call in
    let sqrt_T := map sqrt Tv in
    let d1 := ((map np_log (Sv [/] Kv) [+] ((r - q) [:+] 0.5 [:*] map sq sigv) [*] Tv)
               [/] (sigv [*] sqrt_T))%vec in
    let d2 := (d1 [-] sigv [*] sqrt_T)%vec in
    let exp_qT := map np_exp ((- q) [:*] Tv)%vec in
    let exp_rT := map np_exp ((- r) [:*] Tv)%vec in
    let phi_d1 := map norm_pdf d1 in
    let Nd1 := map norm_cdf d1 in
    let Nd2 := map norm_cdf d2 in
    let Nmd1 := map norm_cdf (vneg d1) in
    let Nmd2 := map norm_cdf (vneg d2) in
    let gamma := mask_put gamma valid (exp_qT [*] phi_d1 [/] (Sv [*] sigv [*] sqrt_T))%vec in
    let vega := mask_put vega valid (Sv [*] exp_qT [*] phi_d1 [*] sqrt_T [/:] 100)%vec in
    let delta :=
      mask_put delta valid
        (vwhere is_call_v (exp_qT [*] Nd1) (exp_qT [*] (Nd1 [-:] 1)))%vec in
    let common_theta := (vneg (Sv [*] phi_d1 [*] sigv [*] exp_qT) [/] (2 [:*] sqrt_T))%vec in
    let theta_call :=
      (common_theta [-] r [:*] Kv [*] exp_rT [*] Nd2 [+] q [:*] Sv [*] exp_qT [*] Nd1)%vec in
    let theta_put :=
      (common_theta [+] r [:*] Kv [*] exp_rT [*] Nmd2 [-] q [:*] Sv [*] exp_qT [*] Nmd1)%vec in
    let theta := mask_put theta valid (vwhere is_call_v theta_call theta_put [/:] 365)%vec in
    let rho_call := (Kv [*] Tv [*] exp_rT [*] Nd2 [/:] 100)%vec in
    let rho_put := (vneg Kv [*] Tv [*] exp_rT [*] Nmd2 [/:] 100)%vec in
    let rho := mask_put rho valid (vwhere is_call_v rho_call rho_put) in
    {| g_delta := delta; g_gamma := gamma; g_vega := vega; g_theta := theta; g_rho := rho |}.

(** The validity of one row, and the closed forms of the specification for
    one valid row, with the operations in the order the code applies them. *)
Definition greeks_valid (S K T sigma : float) : bool :=
  isfinite sigma && (0 <? T) && (0 <? S) && (0 <? K) && (0 <? sigma).

Definition g_d1 (S K T r q sigma : float) : float :=
  (np_log (S / K) + (r - q + 0.5 * sq sigma) * T) / (sigma * sqrt T).

Definition g_d2 (S K T r q sigma : float) : float := g_d1 S K T r q sigma - sigma * sqrt T.

Definition gamma_formula (S K T r q sigma : float) : float :=
  np_exp (- q * T) * norm_pdf (g_d1 S K T r q sigma) / (S * sigma * sqrt T).

Definition vega_formula (S K T r q sigma : float) : float :=
  S * np_exp (- q * T) * norm_pdf (g_d1 S K T r q sigma) * sqrt T / 100.

Definition delta_formula (S K T r q sigma : float) (is_call : bool) : float :=
  if is_call
  then np_exp (- q * T) * norm_cdf (g_d1 S K T r q sigma)
  else np_exp (- q * T) * (norm_cdf (g_d1 S K T r q sigma) - 1).

Definition common_theta_formula (S K T r q sigma : float) : float :=
  - (S * norm_pdf (g_d1 S K T r q sigma) * sigma * np_exp (- q * T)) / (2 * sqrt T).

Definition theta_formula (S K T r q sigma : float) (is_call : bool) : float :=
  (if is_call
   then common_theta_formula S K T r q sigma
        - r * K * np_exp (- r * T) * norm_cdf (g_d2 S K T r q sigma)
        + q * S * np_exp (- q * T) * norm_cdf (g_d1 S K T r q sigma)
   else common_theta_formula S K T r q sigma
        + r * K * np_exp (- r * T) * norm_cdf (- g_d2 S K T r q sigma)
        - q * S * np_exp (- q * T) * norm_cdf (- g_d1 S K T r q sigma)) / 365.

Definition rho_formula (S K T r q sigma : float) (is_call : bool) : float :=
  if is_call
  then K * T * np_exp (- r * T) * norm_cdf (g_d2 S K T r q sigma) / 100
  else - K * T * np_exp (- r * T) * norm_cdf (- g_d2 S K T r q sigma) / 100.
End Greeks.

(** ** Contracts of the root-finder *)

(** Both values strictly positive or both strictly negative. *)
Definition same_sign (x y : float) : bool :=
  ((0 <? x) && (0 <? y)) || ((x <? 0) && (y <? 0)).

(** scipy's root-finders refuse a bracket whose end values have the same
    sign: "f(a) and f(b) must have different signs", a ValueError. *)
Definition refuses_same_sign (R : RootFinder) : Prop :=
  forall f a b maxiter xtol,
    same_sign (f a) (f b) = true -> brentq f a b maxiter xtol = Raise ValueError.

(** They return an end of the bracket where the function is exactly zero,
    the lower end first, once both end values are numbers. *)
Definition returns_zero_end (R : RootFinder) : Prop :=
  forall f a b maxiter xtol,
    is_nan (f a) = false -> is_nan (f b) = false ->
    ((f a =? 0) = true -> brentq f a b maxiter xtol = Ret a) /\
    ((f a =? 0) = false -> (f b =? 0) = true -> brentq f a b maxiter xtol = Ret b).

(** Their failures are numerical failures: ValueError and RuntimeError. *)
Definition raises_numerical_only (R : RootFinder) : Prop :=
  forall f a b maxiter xtol e,
    brentq f a b maxiter xtol = Raise e -> numerical_failure e = true.

(** ** A reference interpretation of the libraries

    Executable stand-ins for the numpy and scipy functions, so that the
    model runs on concrete rows. They are approximations in binary64 (a
    scaled Taylor series for exp, an atanh series for log, Marsaglia's series
    and the Laplace continued fraction for the normal distribution, bisection
    for the root-finder), not the libraries' own code. The theorems are
    proved for every interpretation; the stand-ins serve the concrete runs,
    which rely on them only where the libraries agree beyond doubt: the
    normal distribution and density vanish far in the lower tail, exp(-0) is
    1, nan maps to nan. *)
Module Ref.

(** [1 + y/1 (1 + y/2 (1 + ... (1 + y/k)))], from the innermost factor. *)
Fixpoint exp_horner (n : nat) (k y acc : float) : float :=
  match n with
  | O => acc
  | S n' => exp_horner n' (k - 1) y (1 + y / k * acc)
  end.

Fixpoint repeat_sq (n : nat) (v : float) : float :=
  match n with
  | O => v
  | S n' => repeat_sq n' (v * v)
  end.

Definition exp (x : float) : float :=
  if is_nan x then nan
  else if x <? -746 then 0
  else if 710 <? x then infinity
  else repeat_sq 12 (exp_horner 14 14 (x / 4096) 1).

(** [1 + z2/3 + z2^2/5 + ...], from the innermost term. *)
Fixpoint atanh_series (n : nat) (k z2 acc : float) : float :=
  match n with
  | O => acc
  | S n' => atanh_series n' (k - 2) z2 (1 / k + z2 * acc)
  end.

Definition ln2 : float := 0.6931471805599453.

Definition log (x : float) : float :=
  if is_nan x then nan
  else if x <? 0 then nan
  else if x =? 0 then neg_infinity
  else if is_infinity x then infinity
  else
    let '(m, e) := frshiftexp x in
    let ef := of_uint63 e - 2101 in
    let '(m, ef) := if m <? 0.7071067811865476 then (2 * m, ef - 1) else (m, ef) in
    let z := (m - 1) / (m + 1) in
    ef * ln2 + 2 * z * atanh_series 13 25 (z * z) 0.

Definition pdf (x : float) : float := 0.3989422804014327 * exp (- (x * x) / 2).

(** [1 + x2/3 (1 + x2/5 (1 + ...))], from the innermost factor. *)
Fixpoint cdf_series (n : nat) (k x2 acc : float) : float :=
  match n with
  | O => acc
  | S n' => cdf_series n' (k - 2) x2 (1 + x2 / k * acc)
  end.

(** [t + 1/(t + 2/(t + 3/(t + ...)))], from the innermost quotient. *)
Fixpoint mills_cf (n : nat) (k t acc : float) : float :=
  match n with
  | O => acc
  | S n' => mills_cf n' (k - 1) t (t + k / acc)
  end.

Definition cdf (x : float) : float :=
  if is_nan x then nan
  else if x <? -4 then pdf x / mills_cf 200 200 (- x) (- x)
  else if 4 <? x then 1 - pdf x / mills_cf 200 200 x x
  else 0.5 + pdf x * x * cdf_series 120 241 (x * x) 1.

#[export] Instance math : MathLib :=
  {| np_log := log; np_exp := exp; norm_cdf := cdf; norm_pdf := pdf |}.

Fixpoint bisect (f : float -> float) (n : nat) (a b fa xtol : float) : outcome float :=
  match n with
  | O => Raise RuntimeError
  | S n' =>
      let m := (a + b) / 2 in
      let fm := f m in
      if (fm =? 0) || (abs (b - a) / 2 <? xtol) then Ret m
      else if same_sign fa fm then bisect f n' m b fm xtol
      else bisect f n' a m fa xtol
  end.

Definition root (f : float -> float) (a b : float) (maxiter : nat) (xtol : float)
  : outcome float :=
  let fa := f a in
  let fb := f b in
  if is_nan fa || is_nan fb then Raise ValueError
  else if fa =? 0 then Ret a
  else if fb =? 0 then Ret b
  else if same_sign fa fb then Raise ValueError
  else bisect f maxiter a b fa xtol.

#[export] Instance finder : RootFinder := {| brentq := root |}.

End Ref.

(** ** The Newton iteration read position by position *)

Section NewtonIndexed.
Context {M : MathLib}.
Variables (market_price S K T : list float) (r : float) (is_call : list bool).
Variable tol : float.

(** [diff], [vega], [converged] and [bad_vega] of the row at position [i],
    for the array [sigma] the iteration starts from. *)
Definition diff_at (sigma : list float) (i : nat) : float :=
  nr_diff (nth i market_price 0) (nth i S 0) (nth i K 0) (nth i T 0) r
    (nth i sigma nan) (nth i is_call false).

Definition vega_at (sigma : list float) (i : nat) : float :=
  nr_vega (nth i S 0) (nth i K 0) (nth i T 0) r (nth i sigma nan).

Definition converged_at (sigma : list float) (i : nat) : bool :=
  abs (diff_at sigma i) <? tol.

Definition bad_vega_at (sigma : list float) (i : nat) : bool :=
  vega_at sigma i <? 1e-12.

(** [(sigma <= 0) | (sigma > 10)] *)
Definition bad_sigma_val (x : float) : bool := (x <=? 0) || (10 <? x).

(** [nr_iteration] with the index sets as filters of [np.where(active)[0]];
    [nr_iteration_eq_idx] proves the two equal. *)
Definition nr_iteration_idx (st : nr_state) : nr_state :=
  let sigma := st_sigma st in
  let AI := where_ (st_active st) in
  let converged_idx := filter (converged_at sigma) AI in
  let failed_idx := filter (fun i => bad_vega_at sigma i && negb (converged_at sigma i)) AI in
  let update_idx :=
    filter (fun i => negb (converged_at sigma i) && negb (bad_vega_at sigma i)) AI in
  let sigma1 :=
    put_idx sigma update_idx
      (map (fun i => nth i sigma nan - diff_at sigma i / vega_at sigma i) update_idx) in
  let bad_sigma_idx := filter (fun i => bad_sigma_val (nth i sigma1 nan)) update_idx in
  {| st_sigma := put_const sigma1 bad_sigma_idx nan;
     st_result :=
       put_idx (st_result st) converged_idx (map (fun i => nth i sigma nan) converged_idx);
     st_active :=
       put_const (put_const (put_const (st_active st) converged_idx false) failed_idx false)
         bad_sigma_idx false |}.
End NewtonIndexed.

(** The three arrays of a state have [n] entries. *)
Definition wf_state (n : nat) (st : nr_state) : Prop :=
  length (st_sigma st) = n /\ length (st_result st) = n /\ length (st_active st) = n.

(** The loop invariant: the arrays keep their length, an active row still
    has the sentinel as its result, and its trial sigma is the seed or has
    passed the divergence guard. *)
Definition nr_inv (n : nat) (st : nr_state) : Prop :=
  wf_state n st /\
  forall i, nth i (st_active st) false = true ->
    nth i (st_result st) nan = nan /\
    (nth i (st_sigma st) nan = 0.3 \/ bad_sigma_val (nth i (st_sigma st) nan) = false).

(** Every entry of the result array is the sentinel or a sigma whose model
    price is within [tol] of the market price of its row. *)
Definition residual_ok {M : MathLib} (n : nat) (market_price S K T : list float)
  (r : float) (is_call : list bool) (tol : float) (st : nr_state) : Prop :=
  forall i, (i < n)%nat ->
    nth i (st_result st) nan = nan \/
    (abs (nr_diff (nth i market_price 0) (nth i S 0) (nth i K 0) (nth i T 0) r
            (nth i (st_result st) nan) (nth i is_call false)) <? tol) = true.

(** The five input arrays have [n] entries. *)
Definition inputs_of_length (n : nat) (market_price S K T : list float)
  (is_call : list bool) : Prop :=
  length market_price = n /\ length S = n /\ length K = n /\ length T = n /\
  length is_call = n.

(** ** The Greeks read position by position *)

Section GreeksIndexed.
Context {M : MathLib}.
Variables (S K T : list float) (r q : float) (sigma : list float) (is_call : list bool).

(** The array [valid] of [compute_greeks_vectorized]. *)
Definition valid_mask : list bool :=
  vmap2 andb (vmap2 andb (vmap2 andb (vmap2 andb
    (map isfinite sigma) (map (fun x => 0 <? x) T)) (map (fun x => 0 <? x) S))
    (map (fun x => 0 <? x) K)) (map (fun x => 0 <? x) sigma).

(** What the function returns when no row is valid. *)
Definition all_nan (n : nat) : greeks :=
  {| g_delta := repeat nan n; g_gamma := repeat nan n; g_vega := repeat nan n;
     g_theta := repeat nan n; g_rho := repeat nan n |}.

(** The five arrays with each valid position filled by the closed form of
    its row; [compute_greeks_normal] proves the function returns them. *)
Definition filled (n : nat) : greeks :=
  let at_ (f : float -> float -> float -> float -> float -> float -> float) (i : nat) :=
    f (nth i S 0) (nth i K 0) (nth i T 0) r q (nth i sigma nan) in
  let at_call (f : float -> float -> float -> float -> float -> float -> bool -> float)
              (i : nat) :=
    f (nth i S 0) (nth i K 0) (nth i T 0) r q (nth i sigma nan) (nth i is_call false) in
  let VI := where_ valid_mask in
  {| g_delta := mask_put (repeat nan n) valid_mask (map (at_call delta_formula) VI);
     g_gamma := mask_put (repeat nan n) valid_mask (map (at_ gamma_formula) VI);
     g_vega := mask_put (repeat nan n) valid_mask (map (at_ vega_formula) VI);
     g_theta := mask_put (repeat nan n) valid_mask (map (at_call theta_formula) VI);
     g_rho := mask_put (repeat nan n) valid_mask (map (at_call rho_formula) VI) |}.
End GreeksIndexed.

(** Row [i] of the five arrays: delta, gamma, vega, theta, rho. *)
Definition greeks_at (g : greeks) (i : nat) : float * float * float * float * float :=
  (nth i (g_delta g) nan, nth i (g_gamma g) nan, nth i (g_vega g) nan,
   nth i (g_theta g) nan, nth i (g_rho g) nan).

(** The five closed forms of one row, in the same order. *)
Definition greeks_formulas {M : MathLib} (S K T r q sigma : float) (is_call : bool)
  : float * float * float * float * float :=
  (delta_formula S K T r q sigma is_call, gamma_formula S K T r q sigma,
   vega_formula S K T r q sigma, theta_formula S K T r q sigma is_call,
   rho_formula S K T r q sigma is_call).

(** The five input arrays of the Greeks have [n] entries. *)
Definition greek_inputs_of_length (n : nat) (S K T sigma : list float)
  (is_call : list bool) : Prop :=
  length S = n /\ length K = n /\ length T = n /\ length sigma = n /\
  length is_call = n.

(** ** One row of the Newton solver taken alone *)

(** The row before the first iteration: sigma 0.3, result nan, active. *)
Definition row_init : nr_row :=
  {| row_sigma := 0.3; row_result := nan; row_active := true |}.

(** One row taken alone through [budget] iterations: checks and update of
    [vectorized_iv] applied to the row's own market price, S, K, T and
    option type. *)
Definition newton_row_run {M : MathLib} (mp S K T r : float) (call : bool) (tol : float)
  (budget : nat) : nr_row :=
  Nat.iter budget (spec_row_step mp S K T r call tol) row_init.

Section RowInvariant.
Context {M : MathLib}.
Variables (mp S K T r : float) (call : bool) (tol : float).

(** What holds of a row all along its run: while active its result is the
    sentinel and its sigma is the seed or passed the divergence guard; its
    result is the sentinel, or a sigma that is the seed or passed the guard
    and passed the convergence test, and then the row is inactive. *)
Definition row_inv (row : nr_row) : Prop :=
  (row_active row = true ->
   row_result row = nan /\
   (row_sigma row = 0.3 \/ bad_sigma_val (row_sigma row) = false)) /\
  (row_result row = nan \/
   (row_active row = false /\
    (row_result row = 0.3 \/ bad_sigma_val (row_result row) = false) /\
    (abs (nr_diff mp S K T r (row_result row) call) <? tol) = true)).
End RowInvariant.

(** ** [main] of compute_greeks.py, from the prepared columns *)

(** The columns [main] adds to the frame. *)
Record main_output : Type := {
  out_Moneyness : list float;
  out_IV : list float;
  out_greeks : greeks
}.

(** [list(zip(S, K, T_arr, [r]*len(df), [q]*len(df), mkt_price, is_call))];
    [n] is [len(df)]. *)
Definition zip_args (n : nat) (S K T_arr : list float) (r q : float)
  (mkt_price : list float) (is_call : list bool) : list iv_args :=
  combine (combine (combine (combine (combine (combine S K) T_arr) (repeat r n))
                      (repeat q n)) mkt_price) is_call.

(** [main] from the arrays it prepares ([S], [K], [T_arr], [mkt_price],
    [is_call] of a frame of [n] rows) to the columns it adds: Moneyness,
    the IV stage, then the Greeks on the IV array. *)
Definition main_columns {M : MathLib} {R : RootFinder} (SUB_CHUNK W : nat)
  (sched : list nat) (n : nat) (S K T_arr mkt_price : list float) (is_call : list bool)
  : outcome main_output :=
  let r := RISK_FREE_RATE in
  let q := DIVIDEND_YIELD in
  let Moneyness := (S [/] K)%vec in
  let all_args := zip_args n S K T_arr r q mkt_price is_call in
  iv_arr <- main_iv SUB_CHUNK W sched all_args ;;
  Ret {| out_Moneyness := Moneyness;
         out_IV := iv_arr;
         out_greeks := compute_greeks_vectorized S K T_arr r q iv_arr is_call |}.

(** The prepared arrays of a frame of [n] rows. *)
Definition columns_of_length (n : nat) (S K T_arr mkt_price : list float)
  (is_call : list bool) : Prop :=
  length S = n /\ length K = n /\ length T_arr = n /\ length mkt_price = n /\
  length is_call = n.

(** ** Signs of binary64 values *)

(** A function whose values are never negative: each is nan or at least
    zero, as those of numpy's exp and of scipy's normal density are. *)
Definition never_negative (f : float -> float) : Prop :=
  forall x, is_nan (f x) = true \/ (0 <=? f x) = true.

(** Not below zero: nan, a zero of either sign, or a positive number. *)
Definition sf_not_neg (x : spec_float) : Prop :=
  match x with
  | S754_infinity s | S754_finite s _ _ => s = false
  | _ => True
  end.

(** Sign bit clear: nan, +0, or a positive number. *)
Definition sf_sign_clear (x : spec_float) : Prop :=
  match x with
  | S754_zero s | S754_infinity s | S754_finite s _ _ => s = false
  | S754_nan => True
  end.

(** ** The forward factor: backtesting/utils.py *)

(** [np.where(c, a, np.nan)] *)
Definition where_nan (c : list bool) (a : list float) : list float :=
  vmap2 (fun (ci : bool) (x : float) => if ci then x else nan) c a.

(** [compute_forward_factor(v1, t1, v2, t2)] on four arrays of one length;
    it returns [(ff, forward_vol)]. *)
Definition compute_forward_factor (v1 t1 v2 t2 : list float) : list float * list float :=
  let dt := (t2 [-] t1)%vec in
  let valid := map (fun x => 1e-6 <? x) dt in
  let forward_var :=
    where_nan valid ((map sq v2 [*] t2 [-] map sq v1 [*] t1) [/] dt)%vec in
  let fv_positive := map (fun x => 0 <? x) forward_var in
  let forward_vol := where_nan fv_positive (map sqrt forward_var) in
  let ff :=
    where_nan (vmap2 andb (map isfinite forward_vol) (map (fun x => 1e-8 <? x) forward_vol))
              ((v1 [/] forward_vol) [-:] 1)%vec in
  (ff, forward_vol).

(** The forward variance of one pair of expiries:
    [(v2**2 * t2 - v1**2 * t1) / (t2 - t1)]. *)
Definition forward_variance (v1 t1 v2 t2 : float) : float :=
  (sq v2 * t2 - sq v1 * t1) / (t2 - t1).

(** * Properties *)

(** ** Runs of the model

    The model evaluated on the two scenarios of the specification and on a
    small batch, with the reference interpretation of the libraries. *)

(** S=22161, K=22000, T=31/365, r=0.04, a call quoted at 727.8: both solvers
    find the volatility 0.2352, at which the price is 727.8. *)
Example newton_on_quoted_call :
  vectorized_iv (M := Ref.math) [727.8] [22161] [22000] [31 / 365] 0.04 [true] 1e-6 100
  = [0.23520999729624967].
Proof. vm_compute. reflexivity. Qed.

Example bracketed_on_quoted_call :
  _solve_iv (M := Ref.math) (R := Ref.finder) (22161, 22000, 31 / 365, 0.04, 0, 727.8, true)
  = Ret 0.23520999173633753.
Proof. vm_compute. reflexivity. Qed.

(** S=100, K=10000, T=1/365, r=0.05, a call quoted at 1.0: no volatility in
    the bounds reaches the price, and both solvers give the sentinel. *)
Example solvers_on_unreachable_price :
  vectorized_iv (M := Ref.math) [1] [100] [10000] [1 / 365] 0.05 [true] 1e-6 100 = [nan] /\
  _solve_iv (M := Ref.math) (R := Ref.finder) (100, 10000, 1 / 365, 0.05, 0, 1, true)
  = Ret nan.
Proof. vm_compute. split; reflexivity. Qed.

(** Five rows in chunks of two, the second chunk finishing first: the array
    is in row order, with the sentinel for the unreachable price and for the
    expired row. *)
Example chunked_run :
  main_iv (M := Ref.math) (R := Ref.finder) 2 2 [1; 0; 2]%nat
    [(100, 100, 1, 0, 0, 10, true); (100, 10000, 1 / 365, 0.05, 0, 1, true);
     (100, 100, 0, 0, 0, 10, true); (22161, 22000, 31 / 365, 0.04, 0, 727.8, true);
     (100, 90, 0.5, 0.068, 0, 2, false)]
  = Ret [0.25132269103266291; nan; nan; 0.23520999173633753; 0.24904258030466736].
Proof. vm_compute. reflexivity. Qed.

(** The Greeks of a valid row and of a row whose sigma is the sentinel. *)
Example greeks_run :
  compute_greeks_vectorized (M := Ref.math) [22161; 100] [22000; 100] [31 / 365; 0.5]
    0.04 0 [0.2352; nan] [true; false]
  = {| g_delta := [0.57542848934538093; nan];
       g_gamma := [0.00025792442013526786; nan];
       g_vega := [25.303308885730026; nan];
       g_theta := [-10.916663735015263; nan];
       g_rho := [10.212415822321994; nan] |}.
Proof. vm_compute. reflexivity. Qed.

(** ** Arrays *)

Section ArrayFacts.
Context {A : Type}.

Lemma set_nth_length (i : nat) (v : A) (xs : list A) :
  length (set_nth i v xs) = length xs.
Proof.
  revert i; induction xs as [|x xs IH]; intros [|i]; simpl; auto.
Qed.

Lemma nth_set_nth (i j : nat) (v d : A) (xs : list A) :
  nth i (set_nth j v xs) d =
  if Nat.eqb i j && Nat.ltb i (length xs) then v else nth i xs d.
Proof.
  revert i j; induction xs as [|x xs IH]; intros i j.
  - change (Nat.ltb i (length (@nil A))) with false.
    rewrite andb_false_r. reflexivity.
  - destruct j as [|j], i as [|i]; simpl; try reflexivity.
    rewrite IH. reflexivity.
Qed.

Lemma put_idx_length (xs : list A) (idx : list nat) (vs : list A) :
  length (put_idx xs idx vs) = length xs.
Proof.
  revert xs vs; induction idx as [|i idx IH]; intros xs [|v vs]; simpl; auto.
  rewrite IH. apply set_nth_length.
Qed.

Lemma put_const_length (xs : list A) (idx : list nat) (v : A) :
  length (put_const xs idx v) = length xs.
Proof. apply put_idx_length. Qed.

(** Writing values that depend on the position only: the entry at [i] is
    the value for [i] when [i] is one of the positions written. *)
Lemma nth_put_idx_map (g : nat -> A) (d : A) (idx : list nat) (xs : list A) (i : nat) :
  nth i (put_idx xs idx (map g idx)) d =
  if memb i idx && Nat.ltb i (length xs) then g i else nth i xs d.
Proof.
  revert xs; induction idx as [|j idx IH]; intros xs; simpl.
  - reflexivity.
  - rewrite IH, set_nth_length, nth_set_nth.
    destruct (Nat.eqb_spec i j) as [->|Hne]; simpl.
    + destruct (Nat.ltb j (length xs)); simpl.
      * destruct (memb j idx); reflexivity.
      * rewrite andb_false_r. reflexivity.
    + reflexivity.
Qed.

Lemma nth_put_const (v d : A) (idx : list nat) (xs : list A) (i : nat) :
  nth i (put_const xs idx v) d =
  if memb i idx && Nat.ltb i (length xs) then v else nth i xs d.
Proof. unfold put_const. apply (nth_put_idx_map (fun _ => v)). Qed.

Lemma mask_get_In (m : list bool) (xs : list A) (x : A) :
  In x (mask_get m xs) -> In x xs.
Proof.
  revert xs; induction m as [|b m IH]; intros [|y xs]; simpl; try tauto.
  destruct b; simpl; intros H; [destruct H as [H|H]|]; auto.
Qed.
End ArrayFacts.

Lemma mask_get_map_filter {A B : Type} (c : A -> bool) (f : A -> B) (l : list A) :
  mask_get (map c l) (map f l) = map f (filter c l).
Proof.
  induction l as [|a l IH]; simpl; [reflexivity|].
  destruct (c a); simpl; rewrite IH; reflexivity.
Qed.

Lemma mask_get_filter {A : Type} (c : A -> bool) (l : list A) :
  mask_get (map c l) l = filter c l.
Proof.
  rewrite <- (map_id l) at 2. rewrite mask_get_map_filter. apply map_id.
Qed.

Lemma vmap2_map {A B C D : Type} (op : B -> C -> D) (f : A -> B) (g : A -> C) (l : list A) :
  vmap2 op (map f l) (map g l) = map (fun i => op (f i) (g i)) l.
Proof.
  unfold vmap2. induction l as [|a l IH]; simpl; [reflexivity|].
  rewrite IH. reflexivity.
Qed.

Lemma vwhere_map {A B : Type} (c : A -> bool) (f g : A -> B) (l : list A) :
  vwhere (map c l) (map f l) (map g l) = map (fun i => if c i then f i else g i) l.
Proof.
  unfold vwhere, vmap2. induction l as [|a l IH]; simpl; [reflexivity|].
  rewrite IH. reflexivity.
Qed.

Lemma memb_In (i : nat) (l : list nat) : memb i l = true <-> In i l.
Proof.
  unfold memb. rewrite existsb_exists. split.
  - intros [x [Hx He]]. apply Nat.eqb_eq in He. subst. exact Hx.
  - intros H. exists i. split; [exact H | apply Nat.eqb_refl].
Qed.

Lemma memb_filter (p : nat -> bool) (i : nat) (l : list nat) :
  memb i (filter p l) = memb i l && p i.
Proof.
  induction l as [|a l IH]; simpl; [reflexivity|].
  destruct (p a) eqn:Hp; simpl; rewrite IH.
  - destruct (Nat.eqb_spec i a) as [->|]; simpl; [|reflexivity].
    rewrite Hp. destruct (memb a l); reflexivity.
  - destruct (Nat.eqb_spec i a) as [->|]; simpl; [|reflexivity].
    rewrite Hp. rewrite !andb_false_r. reflexivity.
Qed.

Lemma memb_mask_seq (m : list bool) (k i : nat) :
  memb i (mask_get m (seq k (length m))) = Nat.leb k i && nth (i - k) m false.
Proof.
  revert k; induction m as [|b m IH]; intros k; simpl.
  - destruct (i - k)%nat; rewrite andb_false_r; reflexivity.
  - assert (Htail : memb i (mask_get m (seq (S k) (length m))) =
                    Nat.leb (S k) i && nth (i - S k) m false) by apply IH.
    destruct (Nat.leb_spec k i) as [Hle|Hgt].
    + destruct (Nat.eqb_spec i k) as [->|Hne].
      * rewrite Nat.sub_diag. destruct b; simpl.
        -- rewrite Nat.eqb_refl. reflexivity.
        -- rewrite Htail. destruct (Nat.leb_spec (S k) k); [lia | reflexivity].
      * assert (Hs : (i - k = S (i - S k))%nat) by lia. rewrite Hs.
        assert (Hl : Nat.leb (S k) i = true) by (apply Nat.leb_le; lia).
        destruct b; simpl.
        -- apply Nat.eqb_neq in Hne. rewrite Hne. simpl. rewrite Htail, Hl. reflexivity.
        -- rewrite Htail, Hl. reflexivity.
    + assert (Hl : Nat.leb (S k) i = false) by (apply Nat.leb_gt; lia).
      destruct b; simpl.
      * destruct (Nat.eqb_spec i k); [lia|]. simpl. rewrite Htail, Hl. reflexivity.
      * rewrite Htail, Hl. reflexivity.
Qed.

(** [np.where] lists exactly the true positions of the mask. *)
Lemma memb_where (m : list bool) (i : nat) : memb i (where_ m) = nth i m false.
Proof.
  unfold where_. rewrite memb_mask_seq. simpl. rewrite Nat.sub_0_r. reflexivity.
Qed.

Lemma where_lt (m : list bool) (i : nat) : In i (where_ m) -> (i < length m)%nat.
Proof.
  intros H. apply mask_get_In in H. apply in_seq in H. lia.
Qed.

Lemma mask_get_seq_shift {A : Type} (d : A) (m : list bool) (xs : list A) (k : nat) :
  length m = length xs ->
  mask_get m xs = map (fun i => nth (i - k) xs d) (mask_get m (seq k (length m))).
Proof.
  revert xs k; induction m as [|b m IH]; intros [|x xs] k Hlen; simpl in *;
    try discriminate; [reflexivity|].
  injection Hlen as Hlen.
  assert (Htail : mask_get m xs =
                  map (fun i => nth (i - k) (x :: xs) d) (mask_get m (seq (S k) (length m)))).
  { rewrite (IH xs (S k) Hlen). apply map_ext_in. intros i Hi.
    apply mask_get_In in Hi. apply in_seq in Hi.
    replace (i - k)%nat with (S (i - S k)) by lia. reflexivity. }
  destruct b; simpl.
  - rewrite Nat.sub_diag. simpl. f_equal. exact Htail.
  - exact Htail.
Qed.

(** A boolean mask selects the entries at the positions [np.where] lists. *)
Lemma mask_get_where {A : Type} (d : A) (m : list bool) (xs : list A) :
  length m = length xs ->
  mask_get m xs = map (fun i => nth i xs d) (where_ m).
Proof.
  intros Hlen. unfold where_. rewrite (mask_get_seq_shift d m xs 0 Hlen).
  apply map_ext. intros i. rewrite Nat.sub_0_r. reflexivity.
Qed.

(** ** The Newton iteration, row by row *)

Lemma ltb_true (i m : nat) : (i < m)%nat -> Nat.ltb i m = true.
Proof. intros H. apply Nat.ltb_lt. exact H. Qed.

Section NewtonFacts.
Context {M : MathLib}.
Variables (market_price S K T : list float) (r : float) (is_call : list bool).
Variable tol : float.
Variable n : nat.
Hypothesis Hin : inputs_of_length n market_price S K T is_call.

Lemma nr_iteration_eq_idx (st : nr_state) :
  wf_state n st ->
  nr_iteration market_price S K T r is_call tol st =
  nr_iteration_idx market_price S K T r is_call tol st.
Proof.
  destruct Hin as (Hmp & HS & HK & HT & Hcall).
  intros (Hsig & Hres & Hact).
  unfold nr_iteration. cbv zeta.
  rewrite (mask_get_where nan (st_active st) (st_sigma st)) by congruence.
  rewrite (mask_get_where 0 (st_active st) market_price) by congruence.
  rewrite (mask_get_where 0 (st_active st) S) by congruence.
  rewrite (mask_get_where 0 (st_active st) K) by congruence.
  rewrite (mask_get_where 0 (st_active st) T) by congruence.
  rewrite (mask_get_where false (st_active st) is_call) by congruence.
  unfold vadd, vsub, vmul, vdiv, vneg, sadd, smul, take_idx.
  repeat (rewrite map_map || rewrite vmap2_map || rewrite vwhere_map
          || rewrite mask_get_filter || rewrite mask_get_map_filter).
  reflexivity.
Qed.

Lemma nr_iteration_idx_row (st : nr_state) (i : nat) :
  wf_state n st -> (i < n)%nat ->
  row_at (nr_iteration_idx market_price S K T r is_call tol st) i =
  spec_row_step (nth i market_price 0) (nth i S 0) (nth i K 0) (nth i T 0) r
    (nth i is_call false) tol (row_at st i).
Proof.
  intros (Hsig & Hres & Hact) Hi.
  unfold nr_iteration_idx, row_at, spec_row_step. cbv zeta. simpl.
  rewrite !nth_put_const, !put_const_length, !put_idx_length, !nth_put_idx_map.
  rewrite !memb_filter, !memb_where, !nth_put_idx_map, !memb_filter, !memb_where.
  rewrite Hsig, Hres, Hact, (ltb_true i n Hi), !andb_true_r.
  fold (diff_at market_price S K T r is_call (st_sigma st) i).
  fold (vega_at S K T r (st_sigma st) i).
  fold (converged_at market_price S K T r is_call tol (st_sigma st) i).
  fold (bad_vega_at S K T r (st_sigma st) i).
  destruct (nth i (st_active st) false); simpl; [|reflexivity].
  destruct (converged_at market_price S K T r is_call tol (st_sigma st) i),
    (bad_vega_at S K T r (st_sigma st) i); simpl; try reflexivity.
  unfold bad_sigma_val.
  destruct (_ || _); reflexivity.
Qed.

Lemma nr_iteration_row (st : nr_state) (i : nat) :
  wf_state n st -> (i < n)%nat ->
  row_at (nr_iteration market_price S K T r is_call tol st) i =
  spec_row_step (nth i market_price 0) (nth i S 0) (nth i K 0) (nth i T 0) r
    (nth i is_call false) tol (row_at st i).
Proof.
  intros Hwf Hi. rewrite (nr_iteration_eq_idx st Hwf).
  apply nr_iteration_idx_row; assumption.
Qed.

Lemma nr_iteration_wf (st : nr_state) :
  wf_state n st -> wf_state n (nr_iteration market_price S K T r is_call tol st).
Proof.
  intros Hwf. rewrite (nr_iteration_eq_idx st Hwf).
  destruct Hwf as (Hsig & Hres & Hact).
  unfold nr_iteration_idx, wf_state. simpl.
  rewrite !put_const_length, !put_idx_length. auto.
Qed.
End NewtonFacts.

(** ** binary64 facts

    From the IEEE specification of the primitive operations: nan absorbs,
    nan compares false, and a product that is strictly positive has factors
    of one strict sign. *)

Lemma Prim2SF_nan : Prim2SF nan = S754_nan.
Proof. reflexivity. Qed.

Lemma mul_nan_l x : nan * x = nan.
Proof. apply Prim2SF_inj. rewrite mul_spec, Prim2SF_nan. reflexivity. Qed.

Lemma mul_nan_r x : x * nan = nan.
Proof.
  apply Prim2SF_inj. rewrite mul_spec, Prim2SF_nan.
  destruct (Prim2SF x); reflexivity.
Qed.

Lemma sub_nan_l x : nan - x = nan.
Proof. apply Prim2SF_inj. rewrite sub_spec, Prim2SF_nan. reflexivity. Qed.

Lemma sub_nan_r x : x - nan = nan.
Proof.
  apply Prim2SF_inj. rewrite sub_spec, Prim2SF_nan.
  destruct (Prim2SF x); reflexivity.
Qed.

Lemma div_nan_r x : x / nan = nan.
Proof.
  apply Prim2SF_inj. rewrite div_spec, Prim2SF_nan.
  destruct (Prim2SF x); reflexivity.
Qed.

Lemma ltb_nan_l x : (nan <? x) = false.
Proof. rewrite ltb_spec, Prim2SF_nan. reflexivity. Qed.

Lemma eqb_zero_SF x : (x =? 0) = true -> exists s, Prim2SF x = S754_zero s.
Proof.
  rewrite eqb_spec. change (Prim2SF 0) with (S754_zero false).
  destruct (Prim2SF x) as [s|s| |s m e]; simpl; try discriminate.
  - intros _. exists s. reflexivity.
  - destruct s; discriminate.
  - destruct s; discriminate.
Qed.

Lemma eqb_zero_number x : (x =? 0) = true -> is_nan x = false.
Proof.
  intros H. destruct (eqb_zero_SF x H) as [s Hs].
  unfold is_nan. rewrite eqb_spec, Hs. reflexivity.
Qed.

Lemma zero_mul_not_pos_l x y : (x =? 0) = true -> (0 <? x * y) = false.
Proof.
  intros H. destruct (eqb_zero_SF x H) as [s Hs].
  rewrite ltb_spec, mul_spec, Hs. change (Prim2SF 0) with (S754_zero false).
  destruct (Prim2SF y) as [s'|s'| |s' m e]; reflexivity.
Qed.

Lemma zero_mul_not_pos_r x y : (y =? 0) = true -> (0 <? x * y) = false.
Proof.
  intros H. destruct (eqb_zero_SF y H) as [s Hs].
  rewrite ltb_spec, mul_spec, Hs. change (Prim2SF 0) with (S754_zero false).
  destruct (Prim2SF x) as [s'|s'| |s' m e]; reflexivity.
Qed.

Lemma SFltb_zero_pos y : SFltb (S754_zero false) y = true ->
  match y with S754_infinity false | S754_finite false _ _ => True | _ => False end.
Proof.
  destruct y as [s|s| |s m e]; simpl; try discriminate; destruct s; try discriminate; auto.
Qed.

Lemma round_aux_sign s m e l :
  match binary_round_aux prec emax s m e l with
  | S754_infinity s' | S754_finite s' _ _ => s' = s
  | _ => True
  end.
Proof.
  unfold binary_round_aux.
  destruct (shr_fexp prec emax m e l) as [mrs' e'].
  destruct (shr_fexp prec emax _ e' loc_Exact) as [mrs'' e''].
  destruct (shr_m mrs''); auto.
  match goal with |- context [if ?b then _ else _] => destruct b end; reflexivity.
Qed.

Lemma pos_mul_same_sign x y : (0 <? x * y) = true -> same_sign x y = true.
Proof.
  unfold same_sign. rewrite !ltb_spec, mul_spec.
  change (Prim2SF 0) with (S754_zero false).
  intros H. apply SFltb_zero_pos in H.
  destruct (Prim2SF x) as [sx|sx| |sx mx ex], (Prim2SF y) as [sy|sy| |sy my ey];
    simpl in H; try tauto;
    try (destruct sx, sy; simpl in H; try tauto; reflexivity).
  unfold SF64mul, SFmul in H.
  match type of H with
  | context [binary_round_aux ?p ?em ?s ?m ?e ?l] =>
      pose proof (round_aux_sign s m e l) as Hs;
      destruct (binary_round_aux p em s m e l) as [s0|s0| |s0 m0 e0]
  end; try tauto; destruct s0; try tauto;
    destruct sx, sy; try discriminate; reflexivity.
Qed.

(** ** One row of the Newton step *)

Section RowStepFacts.
Context {M : MathLib}.
Variables (mp S K T r : float) (call : bool) (tol : float).

Lemma row_step_inactive (row : nr_row) :
  row_active row = false -> spec_row_step mp S K T r call tol row = row.
Proof. intros H. unfold spec_row_step. rewrite H. reflexivity. Qed.

(** A row that is active after the step was active before it, keeps its
    result and holds a sigma that passed the divergence guard. *)
Lemma row_step_stays_active (row : nr_row) :
  row_active (spec_row_step mp S K T r call tol row) = true ->
  row_active row = true /\
  row_result (spec_row_step mp S K T r call tol row) = row_result row /\
  bad_sigma_val (row_sigma (spec_row_step mp S K T r call tol row)) = false.
Proof.
  unfold spec_row_step. destruct (row_active row) eqn:Ha; simpl.
  - destruct (abs _ <? tol); simpl; [discriminate|].
    destruct (_ <? 1e-12); simpl; [discriminate|].
    unfold bad_sigma_val.
    destruct (_ || _) eqn:Hb; simpl; [discriminate|]. auto.
  - rewrite Ha. discriminate.
Qed.

(** The result of a row changes only when the row converges: it was
    active, it becomes inactive, and the new result is its sigma. *)
Lemma row_step_result_change (row : nr_row) :
  row_result (spec_row_step mp S K T r call tol row) <> row_result row ->
  row_active row = true /\
  (abs (nr_diff mp S K T r (row_sigma row) call) <? tol) = true /\
  row_result (spec_row_step mp S K T r call tol row) = row_sigma row /\
  row_active (spec_row_step mp S K T r call tol row) = false.
Proof.
  unfold spec_row_step. destruct (row_active row) eqn:Ha; simpl.
  - destruct (abs _ <? tol); simpl; [auto|].
    destruct (_ <? 1e-12); simpl; [congruence|].
    destruct (_ || _); simpl; congruence.
  - congruence.
Qed.

(** With a normal distribution function that maps nan to nan, a nan sigma
    prices to nan and cannot pass the convergence test. *)
Lemma nr_diff_nan : norm_cdf nan = nan -> nr_diff mp S K T r nan call = nan.
Proof.
  intros Hc. unfold nr_diff, nr_price, nr_d2, nr_d1.
  rewrite mul_nan_l, div_nan_r, sub_nan_l.
  change (- nan) with nan. rewrite Hc.
  destruct call; rewrite ?mul_nan_r, ?sub_nan_l, ?sub_nan_r; reflexivity.
Qed.

Lemma converged_not_nan (s : float) :
  norm_cdf nan = nan ->
  (abs (nr_diff mp S K T r s call) <? tol) = true -> s <> nan.
Proof.
  intros Hc Hconv ->. rewrite (nr_diff_nan Hc) in Hconv.
  change (abs nan) with nan in Hconv. rewrite ltb_nan_l in Hconv. discriminate.
Qed.
End RowStepFacts.

Lemma nth_repeat_any {A : Type} (a d : A) (n i : nat) :
  (i < n)%nat -> nth i (repeat a n) d = a.
Proof.
  revert i; induction n as [|n IH]; intros [|i] H; simpl; try lia; auto.
  apply IH. lia.
Qed.

Lemma nth_true_lt (m : list bool) (i : nat) :
  nth i m false = true -> (i < length m)%nat.
Proof.
  intros H. destruct (Nat.lt_ge_cases i (length m)) as [|Hge]; [assumption|].
  rewrite (nth_overflow m false Hge) in H. discriminate.
Qed.

Section NewtonRun.
Context {M : MathLib}.
Variables (market_price S K T : list float) (r : float) (is_call : list bool).
Variable tol : float.
Variable n : nat.
Hypothesis Hin : inputs_of_length n market_price S K T is_call.

Local Abbreviation step := (nr_iteration market_price S K T r is_call tol).
Local Abbreviation loop := (nr_loop market_price S K T r is_call tol).
Local Abbreviation trace := (nr_trace market_price S K T r is_call tol).
Local Abbreviation init := (nr_init market_price).

Lemma nr_init_inv : nr_inv n init.
Proof.
  destruct Hin as (Hmp & _). unfold nr_init, nr_inv, wf_state. simpl.
  rewrite !repeat_length, Hmp. split; [auto|].
  intros i Hi. apply nth_true_lt in Hi. rewrite repeat_length in Hi.
  split.
  - destruct (Nat.lt_ge_cases i n) as [Hlt|Hge].
    + apply nth_repeat_any. exact Hlt.
    + apply nth_overflow. rewrite repeat_length. exact Hge.
  - left. apply nth_repeat_any. exact Hi.
Qed.

Lemma nr_iteration_inv (st : nr_state) : nr_inv n st -> nr_inv n (step st).
Proof.
  intros [Hwf Hrows]. split; [apply (nr_iteration_wf market_price S K T r is_call tol n Hin st Hwf)|].
  intros i Hi.
  assert (Hlt : (i < n)%nat).
  { apply nth_true_lt in Hi.
    destruct (nr_iteration_wf market_price S K T r is_call tol n Hin st Hwf) as (_ & _ & Hl).
    rewrite Hl in Hi. exact Hi. }
  pose proof (nr_iteration_row market_price S K T r is_call tol n Hin st i Hwf Hlt) as Hrow.
  assert (Ha : row_active (row_at (step st) i) = true) by exact Hi.
  rewrite Hrow in Ha. apply row_step_stays_active in Ha.
  destruct Ha as (Hact & Hres & Hsig).
  rewrite <- Hrow in Hres, Hsig. unfold row_at in Hact, Hres, Hsig.
  cbn [row_active row_result row_sigma] in Hact, Hres, Hsig.
  destruct (Hrows i Hact) as [Hnan _].
  split; [rewrite Hres; exact Hnan | right; exact Hsig].
Qed.

Lemma nr_loop_inv (max_iter : nat) (st : nr_state) :
  nr_inv n st -> nr_inv n (loop max_iter st).
Proof.
  revert st; induction max_iter as [|k IH]; intros st Hinv; simpl; [exact Hinv|].
  destruct (negb (any (st_active st))); [exact Hinv|].
  apply IH, nr_iteration_inv, Hinv.
Qed.

Lemma nr_trace_inv (max_iter : nat) (st : nr_state) :
  nr_inv n st -> Forall (nr_inv n) (trace max_iter st).
Proof.
  revert st; induction max_iter as [|k IH]; intros st Hinv; simpl.
  - constructor; [exact Hinv | constructor].
  - destruct (negb (any (st_active st))).
    + constructor; [exact Hinv | constructor].
    + constructor; [exact Hinv|]. apply IH, nr_iteration_inv, Hinv.
Qed.

Lemma nr_trace_head (max_iter : nat) (st d : nr_state) :
  nth 0 (trace max_iter st) d = st.
Proof.
  destruct max_iter; simpl; [reflexivity|].
  destruct (negb (any (st_active st))); reflexivity.
Qed.

(** Each state of the run but the first is the iteration of the one before. *)
Lemma nr_trace_succ (max_iter : nat) (st d : nr_state) (j : nat) :
  (Datatypes.S j < length (trace max_iter st))%nat ->
  nth (Datatypes.S j) (trace max_iter st) d = step (nth j (trace max_iter st) d).
Proof.
  revert st j; induction max_iter as [|k IH]; intros st j Hj; simpl in *.
  - lia.
  - destruct (negb (any (st_active st))); simpl in *; [lia|].
    destruct j as [|j].
    + apply nr_trace_head.
    + apply IH. lia.
Qed.

Lemma nr_trace_nonempty (max_iter : nat) (st : nr_state) : trace max_iter st <> [].
Proof.
  destruct max_iter; cbn [nr_trace]; [discriminate|].
  destruct (negb (any (st_active st))); discriminate.
Qed.

(** The loop returns the last state of the run. *)
Lemma nr_trace_last (max_iter : nat) (st d : nr_state) :
  last (trace max_iter st) d = loop max_iter st.
Proof.
  revert st; induction max_iter as [|k IH]; intros st; simpl; [reflexivity|].
  destruct (negb (any (st_active st))); [reflexivity|].
  rewrite <- IH. pose proof (nr_trace_nonempty k (step st)) as Hne.
  destruct (trace k (step st)); [contradiction | reflexivity].
Qed.

Lemma nr_trace_nth_inv (max_iter j : nat) (d : nr_state) :
  (j < length (trace max_iter init))%nat ->
  nr_inv n (nth j (trace max_iter init) d).
Proof.
  intros Hj. pose proof (nr_trace_inv max_iter init nr_init_inv) as HF.
  rewrite Forall_forall in HF. apply HF. apply nth_In. exact Hj.
Qed.

(** An inactive row is the same in every later state of the run. *)
Lemma inactive_row_frozen (max_iter j k i : nat) (d : nr_state) :
  (j <= k)%nat -> (k < length (trace max_iter init))%nat -> (i < n)%nat ->
  row_active (row_at (nth j (trace max_iter init) d) i) = false ->
  row_at (nth k (trace max_iter init) d) i = row_at (nth j (trace max_iter init) d) i.
Proof.
  intros Hjk Hk Hi Hoff. induction Hjk as [|k Hjk IH]; [reflexivity|].
  rewrite (nr_trace_succ max_iter init d k Hk).
  assert (Hk' : (k < length (trace max_iter init))%nat) by lia.
  destruct (nr_trace_nth_inv max_iter k d Hk') as [Hwf _].
  rewrite (nr_iteration_row market_price S K T r is_call tol n Hin _ i Hwf Hi).
  rewrite (IH Hk'). apply row_step_inactive. exact Hoff.
Qed.
End NewtonRun.

Lemma nr_trace_first {M : MathLib} (market_price S K T : list float) (r : float)
  (is_call : list bool) (tol : float) (max_iter : nat) (st : nr_state) :
  In st (nr_trace market_price S K T r is_call tol max_iter st).
Proof.
  destruct max_iter; cbn [nr_trace]; [left; reflexivity|].
  destruct (negb (any (st_active st))); left; reflexivity.
Qed.

(** ** The order of the checks in one Newton iteration *)

(** C2. In every state [st] of a run of [vectorized_iv], the iteration
    takes each row [i] through [spec_row_step]: an inactive row is left
    alone; an active row whose |modelPrice - marketPrice| is below the
    tolerance gets its current sigma written to the result array and is
    deactivated; otherwise, when its vega is below 1e-12, it is deactivated
    with its result untouched; otherwise its sigma becomes
    sigma - diff/vega, and only then, when the new sigma is <= 0 or > 10, it
    is deactivated with its result untouched. The result of an active row is
    the sentinel nan, so the untouched results of the degenerate and
    divergent rows are the sentinel; the converged test comes first, so a
    converged row is never handled as a degenerate-vega failure. *)
Theorem newton_iteration_order {M : MathLib} (market_price S K T : list float)
  (r : float) (is_call : list bool) (tol : float) (n max_iter : nat)
  (st : nr_state) (i : nat) :
  inputs_of_length n market_price S K T is_call ->
  In st (nr_trace market_price S K T r is_call tol max_iter (nr_init market_price)) ->
  (i < n)%nat ->
  row_at (nr_iteration market_price S K T r is_call tol st) i =
    spec_row_step (nth i market_price 0) (nth i S 0) (nth i K 0) (nth i T 0) r
      (nth i is_call false) tol (row_at st i) /\
  (row_active (row_at st i) = true -> row_result (row_at st i) = nan).
Proof.
  intros Hin Hst Hi.
  pose proof (nr_trace_inv market_price S K T r is_call tol n Hin max_iter
                (nr_init market_price) (nr_init_inv market_price S K T is_call n Hin)) as HF.
  rewrite Forall_forall in HF. destruct (HF st Hst) as [Hwf Hrows].
  split.
  - apply (nr_iteration_row market_price S K T r is_call tol n Hin st i Hwf Hi).
  - intros Ha. apply (Hrows i Ha).
Qed.

Lemma newton_iteration_order_witness :
  inputs_of_length 2 [727.8; 1] [22161; 100] [22000; 10000] [31 / 365; 1 / 365]
    [true; true] /\
  row_at (nr_iteration (M := Ref.math) [727.8; 1] [22161; 100] [22000; 10000]
            [31 / 365; 1 / 365] 0.04 [true; true] 1e-6 (nr_init [727.8; 1])) 1 =
    spec_row_step (M := Ref.math) 1 100 10000 (1 / 365) 0.04 true 1e-6
      (row_at (nr_init [727.8; 1]) 1).
Proof.
  assert (Hin : inputs_of_length 2 [727.8; 1] [22161; 100] [22000; 10000]
                  [31 / 365; 1 / 365] [true; true])
    by (repeat split; reflexivity).
  split; [exact Hin|].
  exact (proj1 (newton_iteration_order (M := Ref.math) [727.8; 1] [22161; 100]
                  [22000; 10000] [31 / 365; 1 / 365] 0.04 [true; true] 1e-6 2 100
                  (nr_init [727.8; 1]) 1 Hin
                  (nr_trace_first _ _ _ _ _ _ _ 100 (nr_init [727.8; 1]))
                  (le_n 2))).
Defined.

(** ** Rows that exhaust the iteration budget *)

Section ScalarNewtonFacts.
Context {M : MathLib}.
Variables (market_price S K T r : float) (is_call : bool) (tol : float).

(** [implied_volatility] returns a sigma only when that sigma passed the
    convergence test. *)
Lemma iv_loop_returns_converged (max_iter : nat) (sigma v : float) :
  iv_loop market_price S K T r is_call tol max_iter sigma = Ret v ->
  (abs (nr_diff market_price S K T r v is_call) <? tol) = true.
Proof.
  revert sigma; induction max_iter as [|k IH]; intros sigma; simpl; [discriminate|].
  destruct (K =? 0); [discriminate|].
  match goal with |- context [if ?c then Ret sigma else _] => destruct c eqn:Hc end.
  - intros H; injection H as <-. exact Hc.
  - apply IH.
Qed.

(** When it returns no sigma, it raises, and with a nonzero strike the
    exception is the ValueError of the exhausted budget. *)
Lemma iv_loop_exhausted (max_iter : nat) (sigma : float) :
  (K =? 0) = false ->
  (forall v, iv_loop market_price S K T r is_call tol max_iter sigma <> Ret v) ->
  iv_loop market_price S K T r is_call tol max_iter sigma = Raise ValueError.
Proof.
  intros HK. revert sigma; induction max_iter as [|k IH]; intros sigma; simpl;
    [reflexivity|].
  rewrite HK.
  match goal with |- context [if ?c then Ret sigma else _] => destruct c end.
  - intros H. exfalso. apply (H sigma). reflexivity.
  - apply IH.
Qed.
End ScalarNewtonFacts.

(** C5, as the code has it. For every batch (arrays of one length [n]) and
    every iteration budget, [vectorized_iv] returns an array of [n] entries,
    so non-convergence is never an exception there, and every row still
    active when the loop ends has the sentinel nan as its entry. The scalar
    solver [implied_volatility] of VI.py is different by design: what it
    returns has passed the convergence test, and when it returns nothing,
    the strike being nonzero, it raises ValueError. *)
Theorem newton_budget_exhausted {M : MathLib} (market_price S K T : list float)
  (r : float) (is_call : list bool) (tol : float) (n max_iter : nat) :
  inputs_of_length n market_price S K T is_call ->
  length (vectorized_iv market_price S K T r is_call tol max_iter) = n /\
  (forall i,
     nth i (st_active (vectorized_iv_state market_price S K T r is_call tol max_iter))
         false = true ->
     nth i (vectorized_iv market_price S K T r is_call tol max_iter) nan = nan) /\
  (forall (mp s k t r0 : float) (call : bool) (tol0 : float) (budget : nat),
     (forall v, implied_volatility mp s k t r0 call tol0 budget = Ret v ->
                (abs (nr_diff mp s k t r0 v call) <? tol0) = true) /\
     ((k =? 0) = false ->
      (forall v, implied_volatility mp s k t r0 call tol0 budget <> Ret v) ->
      implied_volatility mp s k t r0 call tol0 budget = Raise ValueError)).
Proof.
  intros Hin.
  pose proof (nr_loop_inv market_price S K T r is_call tol n Hin max_iter
                (nr_init market_price) (nr_init_inv market_price S K T is_call n Hin))
    as [(_ & Hres & _) Hrows].
  split; [exact Hres|]. split.
  - intros i Hi. apply (Hrows i Hi).
  - intros mp s k t r0 call tol0 budget. split.
    + intros v. apply iv_loop_returns_converged.
    + apply iv_loop_exhausted.
Qed.

Lemma newton_budget_exhausted_witness :
  inputs_of_length 1 [1] [100] [10000] [1 / 365] [true] /\
  length (vectorized_iv (M := Ref.math) [1] [100] [10000] [1 / 365] 0.05 [true]
            1e-6 100) = 1%nat.
Proof.
  assert (Hin : inputs_of_length 1 [1] [100] [10000] [1 / 365] [true])
    by (repeat split; reflexivity).
  split; [exact Hin|].
  exact (proj1 (newton_budget_exhausted (M := Ref.math) [1] [100] [10000] [1 / 365]
                  0.05 [true] 1e-6 1 100 Hin)).
Defined.

(** C5 as stated fails on the scalar Newton solver of VI.py. On the
    degenerate scenario of the specification (S=100, K=10000, T=1/365,
    r=0.05, a call quoted at 1.0) with the default tolerance and budget,
    price and vega are zero at the seed, the first step sends sigma to
    infinity, nothing converges, and the solve ends in the exception. *)
Lemma scalar_newton_raises :
  implied_volatility (M := Ref.math) 1 100 10000 (1 / 365) 0.05 true 1e-6 100
  = Raise ValueError.
Proof. vm_compute. reflexivity. Qed.

(** ** The monotonic give-up of the Newton solver *)

(** C9. Along the run of [vectorized_iv] (the states [tr] before each
    iteration and the final one): a row that is inactive in a state is the
    same row, result included, in every later state, so an entry left at the
    sentinel by a deactivation is never overwritten; and when the result of a
    row differs between two successive states, the row was active with the
    sentinel as its result, it passed the convergence test in that
    iteration, the new result is its sigma of that moment, which lies inside
    the divergence bounds and, for a normal distribution that maps nan to
    nan, is not nan, and the row is inactive from then on. The array returned
    is the result array of the last state. *)
Theorem newton_give_up_monotone {M : MathLib} (market_price S K T : list float)
  (r : float) (is_call : list bool) (tol : float) (n max_iter : nat) (d : nr_state) :
  inputs_of_length n market_price S K T is_call ->
  let tr := nr_trace market_price S K T r is_call tol max_iter (nr_init market_price) in
  (forall j k i,
     (j <= k)%nat -> (k < length tr)%nat -> (i < n)%nat ->
     row_active (row_at (nth j tr d) i) = false ->
     row_at (nth k tr d) i = row_at (nth j tr d) i) /\
  (forall j i,
     (Datatypes.S j < length tr)%nat -> (i < n)%nat ->
     row_result (row_at (nth (Datatypes.S j) tr d) i) <> row_result (row_at (nth j tr d) i) ->
     row_active (row_at (nth j tr d) i) = true /\
     row_result (row_at (nth j tr d) i) = nan /\
     converged_at market_price S K T r is_call tol (st_sigma (nth j tr d)) i = true /\
     row_result (row_at (nth (Datatypes.S j) tr d) i) = row_sigma (row_at (nth j tr d) i) /\
     bad_sigma_val (row_result (row_at (nth (Datatypes.S j) tr d) i)) = false /\
     (norm_cdf nan = nan -> row_result (row_at (nth (Datatypes.S j) tr d) i) <> nan) /\
     row_active (row_at (nth (Datatypes.S j) tr d) i) = false) /\
  vectorized_iv market_price S K T r is_call tol max_iter = st_result (last tr d).
Proof.
  intros Hin tr. split; [|split].
  - intros j k i Hjk Hk Hi Hoff.
    apply (inactive_row_frozen market_price S K T r is_call tol n Hin max_iter j k i d);
      assumption.
  - intros j i Hj Hi Hchg.
    assert (Hj' : (j < length tr)%nat) by lia.
    destruct (nr_trace_nth_inv market_price S K T r is_call tol n Hin max_iter j d Hj')
      as [Hwf Hrows].
    unfold tr in Hchg |- *.
    rewrite (nr_trace_succ market_price S K T r is_call tol max_iter
               (nr_init market_price) d j Hj) in Hchg |- *.
    rewrite (nr_iteration_row market_price S K T r is_call tol n Hin _ i Hwf Hi)
      in Hchg |- *.
    apply row_step_result_change in Hchg.
    destruct Hchg as (Hact & Hconv & Hnew & Hoff).
    destruct (Hrows i Hact) as [Hnan Hsig].
    rewrite Hnew. repeat split; try assumption.
    + cbn [row_at row_sigma]. destruct Hsig as [-> | Hsig]; [reflexivity | exact Hsig].
    + intros Hc. apply (converged_not_nan _ _ _ _ _ _ _ _ Hc Hconv).
  - unfold vectorized_iv, vectorized_iv_state, tr. rewrite nr_trace_last. reflexivity.
Qed.

Lemma newton_give_up_monotone_witness :
  inputs_of_length 2 [727.8; 1] [22161; 100] [22000; 10000] [31 / 365; 1 / 365]
    [true; true] /\
  vectorized_iv (M := Ref.math) [727.8; 1] [22161; 100] [22000; 10000]
    [31 / 365; 1 / 365] 0.04 [true; true] 1e-6 100 =
  st_result
    (last (nr_trace (M := Ref.math) [727.8; 1] [22161; 100] [22000; 10000]
             [31 / 365; 1 / 365] 0.04 [true; true] 1e-6 100 (nr_init [727.8; 1]))
          (nr_init [727.8; 1])).
Proof.
  assert (Hin : inputs_of_length 2 [727.8; 1] [22161; 100] [22000; 10000]
                  [31 / 365; 1 / 365] [true; true])
    by (repeat split; reflexivity).
  split; [exact Hin|].
  exact (proj2 (proj2 (newton_give_up_monotone (M := Ref.math) [727.8; 1] [22161; 100]
                         [22000; 10000] [31 / 365; 1 / 365] 0.04 [true; true] 1e-6 2 100
                         (nr_init [727.8; 1]) Hin))).
Defined.

(** A value on one strict side of zero is a number and is not zero. *)
Lemma SFeqb_refl (f : spec_float) : f <> S754_nan -> SFeqb f f = true.
Proof.
  destruct f as [s|s| |s m e]; intros H; try reflexivity; try congruence.
  - destruct s; reflexivity.
  - unfold SFeqb, SFcompare. rewrite Z.compare_refl, Pos.compare_cont_refl.
    destruct s; reflexivity.
Qed.

Lemma strict_side_number (x : float) :
  (0 <? x) = true \/ (x <? 0) = true -> is_nan x = false /\ (x =? 0) = false.
Proof.
  unfold is_nan. rewrite !ltb_spec, !eqb_spec.
  change (Prim2SF 0) with (S754_zero false).
  intros H. split.
  - rewrite SFeqb_refl; [reflexivity|].
    intros Hn. rewrite Hn in H. destruct H; discriminate.
  - destruct (Prim2SF x) as [s|s| |s m e]; destruct H as [H|H]; try discriminate;
      destruct s; try discriminate; reflexivity.
Qed.

Lemma same_sign_numbers (x y : float) :
  same_sign x y = true ->
  is_nan x = false /\ (x =? 0) = false /\ is_nan y = false /\ (y =? 0) = false.
Proof.
  unfold same_sign. intros H.
  apply orb_true_iff in H. destruct H as [H|H]; apply andb_true_iff in H;
    destruct H as [Hx Hy].
  - destruct (strict_side_number x (or_introl Hx)), (strict_side_number y (or_introl Hy)).
    auto.
  - destruct (strict_side_number x (or_intror Hx)), (strict_side_number y (or_intror Hy)).
    auto.
Qed.

(** ** The reference root-finder honours the contracts *)

Lemma ref_bisect_raises (f : float -> float) (n : nat) (a b fa xtol : float) (e : exn) :
  Ref.bisect f n a b fa xtol = Raise e -> e = RuntimeError.
Proof.
  revert a b fa; induction n as [|k IH]; intros a b fa; simpl.
  - intros H; injection H as <-. reflexivity.
  - destruct (_ || _); [discriminate|].
    destruct (same_sign fa _); apply IH.
Qed.

Lemma ref_finder_numerical : raises_numerical_only Ref.finder.
Proof.
  intros f a b maxiter xtol e. simpl. unfold Ref.root.
  destruct (_ || _); [intros H; injection H as <-; reflexivity|].
  destruct (f a =? 0); [discriminate|].
  destruct (f b =? 0); [discriminate|].
  destruct (same_sign _ _); [intros H; injection H as <-; reflexivity|].
  intros H. apply ref_bisect_raises in H. subst. reflexivity.
Qed.

Lemma ref_finder_refuses : refuses_same_sign Ref.finder.
Proof.
  intros f a b maxiter xtol H. simpl. unfold Ref.root.
  destruct (same_sign_numbers _ _ H) as (Hna & Hza & Hnb & Hzb).
  rewrite Hna, Hnb, Hza, Hzb, H. reflexivity.
Qed.

Lemma ref_finder_zero_end : returns_zero_end Ref.finder.
Proof.
  intros f a b maxiter xtol Hna Hnb. simpl. unfold Ref.root.
  rewrite Hna, Hnb. simpl. split.
  - intros ->. reflexivity.
  - intros -> ->. reflexivity.
Qed.

(** ** The bracketed per-row solver *)

Section BracketedFacts.
Context {M : MathLib} {R : RootFinder}.

Lemma solve_iv_invalid (args : iv_args) :
  invalid_geometry args = true -> _solve_iv args = Ret nan.
Proof.
  unfold invalid_geometry, _solve_iv. cbv zeta. intros ->. reflexivity.
Qed.

(** Past the geometry guard: the product test, then the root-finder under
    the handler of the two numerical exceptions. *)
Lemma solve_iv_valid (args : iv_args) :
  invalid_geometry args = false ->
  _solve_iv args =
  if 0 <? price_diff args IV_LOWER * price_diff args IV_UPPER then Ret nan
  else try_except (brentq (price_diff args) IV_LOWER IV_UPPER 100 1e-8) nan.
Proof.
  unfold invalid_geometry, _solve_iv. cbv zeta. intros ->.
  unfold price_diff. cbv zeta.
  destruct (0 <? _); reflexivity.
Qed.

(** A solve that does not raise gives one value per row. *)
Lemma mapM_total {A B : Type} (f : A -> outcome B) (l : list A) :
  (forall a, In a l -> exists b, f a = Ret b) ->
  exists bs, mapM f l = Ret bs /\ length bs = length l.
Proof.
  induction l as [|a l IH]; intros Hf; simpl.
  - exists []. split; reflexivity.
  - destruct (Hf a (or_introl eq_refl)) as [b Hb].
    destruct IH as [bs [Hbs Hlen]]; [intros x Hx; apply Hf; right; exact Hx|].
    exists (b :: bs). rewrite Hb, Hbs. simpl. split; [reflexivity | congruence].
Qed.

Lemma solve_iv_total (args : iv_args) :
  raises_numerical_only R -> exists v, _solve_iv args = Ret v.
Proof.
  intros HR. destruct (invalid_geometry args) eqn:Hg.
  - exists nan. apply solve_iv_invalid. exact Hg.
  - rewrite (solve_iv_valid args Hg).
    destruct (0 <? _); [exists nan; reflexivity|].
    destruct (brentq (price_diff args) IV_LOWER IV_UPPER 100 1e-8) as [v|e] eqn:Hb.
    + exists v. reflexivity.
    + exists nan. simpl. rewrite (HR _ _ _ _ _ _ Hb). reflexivity.
Qed.
End BracketedFacts.

(** ** Invalid geometry *)

Lemma where_repeat_true (n : nat) : where_ (repeat true n) = seq 0 n.
Proof.
  unfold where_. rewrite repeat_length. generalize 0%nat.
  induction n as [|n IH]; intros k; simpl; [reflexivity|].
  rewrite IH. reflexivity.
Qed.

(** C6, as the code has it. The bracketed per-row solver returns the
    sentinel for every row with T <= 0, mkt_price <= 0, S <= 0 or K <= 0,
    whatever the pricing functions and the root-finder are: neither is
    consulted. The vectorized Newton solver has no such guard: all rows
    start active, and with a budget of at least one iteration and a
    non-empty batch the first iteration prices every row. In the repository
    its caller keeps the invalid rows out: [main] of calculate_vi_2024.py
    hands the solver exactly the records with T > 0, ClsPric > 0,
    UndrlygPric > 0 and StrkPric > 0. *)
Theorem invalid_geometry_policy {M : MathLib} {R : RootFinder} :
  (forall args, invalid_geometry args = true -> _solve_iv args = Ret nan) /\
  (forall market_price S K T r is_call tol max_iter,
     market_price <> [] ->
     priced_rows (nr_init market_price) = seq 0 (length market_price) /\
     vectorized_iv_state market_price S K T r is_call tol (Datatypes.S max_iter) =
       nr_loop market_price S K T r is_call tol max_iter
         (nr_iteration market_price S K T r is_call tol (nr_init market_price))) /\
  (forall df x, In x (vi_main_rows df) <-> In x df /\ vi_valid x = true).
Proof.
  split; [|split].
  - intros args. apply solve_iv_invalid.
  - intros market_price S K T r is_call tol max_iter Hne. split.
    + unfold priced_rows, nr_init. simpl. apply where_repeat_true.
    + unfold vectorized_iv_state. cbn [nr_loop].
      destruct market_price as [|m l]; [congruence | reflexivity].
  - intros df x. unfold vi_main_rows. apply filter_In.
Qed.

Lemma invalid_geometry_policy_witness :
  invalid_geometry (100, 10000, 0, 0.068, 0, 1, true) = true /\
  _solve_iv (M := Ref.math) (R := Ref.finder) (100, 10000, 0, 0.068, 0, 1, true) = Ret nan.
Proof.
  split; [reflexivity|].
  exact (proj1 (invalid_geometry_policy (M := Ref.math) (R := Ref.finder))
           (100, 10000, 0, 0.068, 0, 1, true) eq_refl).
Defined.

(** C6 as stated fails on the vectorized Newton solver. A call on S=100,
    K=10000, T=1/365 quoted at market price 0 has invalid geometry; the
    solver prices it at the seed, finds model price 0 and so a zero
    difference, and returns the seed 0.3 as its volatility, not the
    sentinel. So does the row with T = 0 quoted at 1e-7. *)
Lemma newton_solves_invalid_rows :
  ((0 : float) <=? 0) = true /\
  vectorized_iv (M := Ref.math) [0] [100] [10000] [1 / 365] 0.065 [true] 1e-6 100 = [0.3] /\
  vectorized_iv (M := Ref.math) [1e-7] [100] [200] [0] 0.065 [true] 1e-6 100 = [0.3].
Proof. vm_compute. repeat split; reflexivity. Qed.

(** ** The bracket test *)

(** C7. For a row that passes the geometry guard, with
    f_lo = priceDiff(IV_LOWER) and f_hi = priceDiff(IV_UPPER), the bounds
    being 0.001 and 5.0: when both are strictly positive or both strictly
    negative the solver returns the sentinel (by its own product test, or,
    when the product underflows to zero, by the root-finder refusing the
    bracket, which the handler turns into the sentinel); otherwise its
    result is that of the root-finder run on priceDiff over [0.001, 5.0]
    with maxiter 100 and xtol 1e-8, under the handler of the numerical
    exceptions. *)
Theorem bracket_test {M : MathLib} {R : RootFinder} (args : iv_args) :
  invalid_geometry args = false ->
  IV_LOWER = 0.001 /\ IV_UPPER = 5 /\
  (refuses_same_sign R ->
   same_sign (price_diff args IV_LOWER) (price_diff args IV_UPPER) = true ->
   _solve_iv args = Ret nan) /\
  (same_sign (price_diff args IV_LOWER) (price_diff args IV_UPPER) = false ->
   _solve_iv args = try_except (brentq (price_diff args) IV_LOWER IV_UPPER 100 1e-8) nan).
Proof.
  intros Hg. rewrite (solve_iv_valid args Hg).
  split; [reflexivity|]. split; [reflexivity|]. split.
  - intros HR Hs. destruct (0 <? _); [reflexivity|].
    rewrite (HR _ _ _ _ _ Hs). reflexivity.
  - intros Hs. destruct (0 <? _) eqn:Hp; [|reflexivity].
    apply pos_mul_same_sign in Hp. congruence.
Qed.

Lemma bracket_test_witness :
  invalid_geometry (100, 100, 1, 0, 0, 10, true) = false /\
  _solve_iv (M := Ref.math) (R := Ref.finder) (100, 100, 1, 0, 0, 10, true) =
  try_except
    (brentq (RootFinder := Ref.finder)
       (price_diff (M := Ref.math) (100, 100, 1, 0, 0, 10, true)) IV_LOWER IV_UPPER 100 1e-8)
    nan.
Proof.
  split; [reflexivity|].
  apply (bracket_test (M := Ref.math) (R := Ref.finder) (100, 100, 1, 0, 0, 10, true) eq_refl).
  vm_compute. reflexivity.
Defined.

(** ** Failures of the root-finder *)

(** C8. Whenever the root-finder raises a numerical failure (ValueError or
    RuntimeError) on a row, [_solve_iv] returns the sentinel for that row.
    With a root-finder whose failures are all numerical, as scipy's are,
    [_solve_iv] returns a value for every row, and [_solve_iv_chunk] returns
    one value per row of every chunk: no row aborts its chunk. *)
Theorem root_finder_failures_caught {M : MathLib} {R : RootFinder} :
  (forall args e,
     invalid_geometry args = false ->
     brentq (price_diff args) IV_LOWER IV_UPPER 100 1e-8 = Raise e ->
     numerical_failure e = true ->
     _solve_iv args = Ret nan) /\
  (raises_numerical_only R ->
   (forall args, exists v, _solve_iv args = Ret v) /\
   (forall chunk_args, exists vs,
      _solve_iv_chunk chunk_args = Ret vs /\ length vs = length chunk_args)).
Proof.
  split.
  - intros args e Hg Hb He. rewrite (solve_iv_valid args Hg).
    destruct (0 <? _); [reflexivity|]. rewrite Hb. simpl. rewrite He. reflexivity.
  - intros HR. split.
    + intros args. apply solve_iv_total. exact HR.
    + intros chunk_args. apply mapM_total. intros a _. apply solve_iv_total. exact HR.
Qed.

Lemma root_finder_failures_caught_witness :
  raises_numerical_only Ref.finder /\
  exists vs,
    _solve_iv_chunk (M := Ref.math) (R := Ref.finder)
      [(100, 10000, 1 / 365, 0.05, 0, 1, true); (100, 100, 1, 0, 0, 10, true)] = Ret vs /\
    length vs = 2%nat.
Proof.
  split; [exact ref_finder_numerical|].
  exact (proj2 (proj2 (root_finder_failures_caught (M := Ref.math) (R := Ref.finder))
                  ref_finder_numerical)
           [(100, 10000, 1 / 365, 0.05, 0, 1, true); (100, 100, 1, 0, 0, 10, true)]).
Defined.

(** ** A zero of priceDiff at a bound *)

(** C10. For a row that passes the geometry guard: when the product of
    priceDiff at the two bounds is not strictly positive, the solver does not
    take the no-bracket exit, its result is the root-finder's; a priceDiff of
    exactly zero at either bound makes the product not strictly positive;
    and with a root-finder that returns an end of the bracket where the
    function is zero (the lower end first, both end values being numbers),
    the solver returns IV_LOWER when priceDiff is zero there, and IV_UPPER
    when priceDiff is zero there and not at IV_LOWER. *)
Theorem zero_at_bound {M : MathLib} {R : RootFinder} (args : iv_args) :
  invalid_geometry args = false ->
  ((0 <? price_diff args IV_LOWER * price_diff args IV_UPPER) = false ->
   _solve_iv args = try_except (brentq (price_diff args) IV_LOWER IV_UPPER 100 1e-8) nan) /\
  ((price_diff args IV_LOWER =? 0) = true \/ (price_diff args IV_UPPER =? 0) = true ->
   (0 <? price_diff args IV_LOWER * price_diff args IV_UPPER) = false) /\
  (returns_zero_end R ->
   ((price_diff args IV_LOWER =? 0) = true ->
    is_nan (price_diff args IV_UPPER) = false ->
    _solve_iv args = Ret IV_LOWER) /\
   ((price_diff args IV_UPPER =? 0) = true ->
    (price_diff args IV_LOWER =? 0) = false ->
    is_nan (price_diff args IV_LOWER) = false ->
    _solve_iv args = Ret IV_UPPER)).
Proof.
  intros Hg. rewrite (solve_iv_valid args Hg).
  assert (Hzero : (price_diff args IV_LOWER =? 0) = true \/
                  (price_diff args IV_UPPER =? 0) = true ->
                  (0 <? price_diff args IV_LOWER * price_diff args IV_UPPER) = false).
  { intros [H|H]; [apply zero_mul_not_pos_l | apply zero_mul_not_pos_r]; exact H. }
  split; [intros ->; reflexivity|]. split; [exact Hzero|].
  intros HR. split.
  - intros Hlo Hhi. rewrite (Hzero (or_introl Hlo)).
    pose proof (eqb_zero_number _ Hlo) as Hn.
    destruct (HR (price_diff args) IV_LOWER IV_UPPER 100%nat 1e-8 Hn Hhi) as [H1 _].
    rewrite (H1 Hlo). reflexivity.
  - intros Hhi Hlo Hn. rewrite (Hzero (or_intror Hhi)).
    pose proof (eqb_zero_number _ Hhi) as Hn'.
    destruct (HR (price_diff args) IV_LOWER IV_UPPER 100%nat 1e-8 Hn Hn') as [_ H2].
    rewrite (H2 Hlo Hhi). reflexivity.
Qed.

Lemma zero_at_bound_witness :
  invalid_geometry (100, 1, 1 / 365, 0, 0, 99, true) = false /\
  (price_diff (M := Ref.math) (100, 1, 1 / 365, 0, 0, 99, true) IV_LOWER =? 0) = true /\
  _solve_iv (M := Ref.math) (R := Ref.finder) (100, 1, 1 / 365, 0, 0, 99, true) = Ret IV_LOWER.
Proof.
  split; [reflexivity|]. split; [vm_compute; reflexivity|].
  apply (proj2 (proj2 (zero_at_bound (M := Ref.math) (R := Ref.finder)
                         (100, 1, 1 / 365, 0, 0, 99, true) eq_refl))
           ref_finder_zero_end);
    vm_compute; reflexivity.
Defined.

(** ** The Greeks, row by row *)

Lemma nth_vmap2 {A B C : Type} (op : A -> B -> C) (da : A) (db : B) (dc : C)
  (xs : list A) (ys : list B) (i : nat) :
  (i < length xs)%nat -> (i < length ys)%nat ->
  nth i (vmap2 op xs ys) dc = op (nth i xs da) (nth i ys db).
Proof.
  unfold vmap2. revert ys i; induction xs as [|x xs IH]; intros [|y ys] [|i] Hx Hy;
    simpl in *; try lia; [reflexivity|].
  apply IH; lia.
Qed.

Lemma vmap2_length {A B C : Type} (op : A -> B -> C) (xs : list A) (ys : list B) (n : nat) :
  length xs = n -> length ys = n -> length (vmap2 op xs ys) = n.
Proof.
  intros Hx Hy. unfold vmap2. rewrite length_map, length_combine, Hx, Hy. apply Nat.min_id.
Qed.

Lemma nth_map_lt {A B : Type} (f : A -> B) (da : A) (db : B) (xs : list A) (i : nat) :
  (i < length xs)%nat -> nth i (map f xs) db = f (nth i xs da).
Proof.
  intros H. rewrite (nth_indep _ db (f da)) by (rewrite length_map; exact H).
  apply map_nth.
Qed.

Lemma any_false_nth (m : list bool) (i : nat) : any m = false -> nth i m false = false.
Proof.
  unfold any. revert i; induction m as [|b m IH]; intros [|i] H; simpl in *;
    try reflexivity.
  - destruct b; [discriminate | reflexivity].
  - destruct b; [discriminate|]. apply IH. exact H.
Qed.

(** Filling the true positions of a mask in an all-nan array. *)
Lemma mask_put_nth (g : nat -> float) (m : list bool) (n i : nat) :
  length m = n ->
  nth i (mask_put (repeat nan n) m (map g (where_ m))) nan =
  if nth i m false then g i else nan.
Proof.
  intros Hm. unfold mask_put. rewrite nth_put_idx_map, memb_where, repeat_length.
  destruct (nth i m false) eqn:Hi; simpl.
  - apply nth_true_lt in Hi. rewrite Hm in Hi. rewrite (ltb_true i n Hi). reflexivity.
  - destruct (Nat.lt_ge_cases i n) as [Hlt|Hge].
    + apply nth_repeat_any. exact Hlt.
    + apply nth_overflow. rewrite repeat_length. exact Hge.
Qed.

Lemma mask_put_length {A : Type} (xs : list A) (m : list bool) (vs : list A) :
  length (mask_put xs m vs) = length xs.
Proof. apply put_idx_length. Qed.

Section GreeksFacts.
Context {M : MathLib}.
Variables (S K T : list float) (r q : float) (sigma : list float) (is_call : list bool).
Variable n : nat.
Hypothesis Hin : greek_inputs_of_length n S K T sigma is_call.

Local Abbreviation valid := (valid_mask S K T sigma).

Lemma valid_mask_length : length valid = n.
Proof.
  destruct Hin as (HS & HK & HT & Hsig & Hcall).
  unfold valid_mask. repeat apply vmap2_length; rewrite length_map; assumption.
Qed.

Lemma valid_mask_nth (i : nat) :
  (i < n)%nat ->
  nth i valid false =
  greeks_valid (nth i S 0) (nth i K 0) (nth i T 0) (nth i sigma nan).
Proof.
  destruct Hin as (HS & HK & HT & Hsig & Hcall).
  intros Hi. unfold valid_mask, greeks_valid.
  assert (Hlen : forall (f : float -> bool) xs, length xs = n -> length (map f xs) = n)
    by (intros f xs H; rewrite length_map; exact H).
  pose proof (Hlen isfinite sigma Hsig) as L0.
  pose proof (Hlen (fun x => 0 <? x) T HT) as L1.
  pose proof (Hlen (fun x => 0 <? x) S HS) as L2.
  pose proof (Hlen (fun x => 0 <? x) K HK) as L3.
  pose proof (Hlen (fun x => 0 <? x) sigma Hsig) as L4.
  pose proof (vmap2_length andb _ _ n L0 L1) as L5.
  pose proof (vmap2_length andb _ _ n L5 L2) as L6.
  pose proof (vmap2_length andb _ _ n L6 L3) as L7.
  rewrite !(nth_vmap2 andb false false false) by lia.
  rewrite (nth_map_lt isfinite nan), !(nth_map_lt (fun x => 0 <? x) 0) by lia.
  rewrite (nth_indep sigma 0 nan) by lia.
  reflexivity.
Qed.

Lemma compute_greeks_normal :
  compute_greeks_vectorized S K T r q sigma is_call =
  if negb (any valid) then all_nan n else filled S K T r q sigma is_call n.
Proof.
  pose proof valid_mask_length as Hv.
  destruct Hin as (HS & HK & HT & Hsig & Hcall).
  unfold compute_greeks_vectorized. cbv zeta. fold valid.
  rewrite Hsig. destruct (negb (any valid)); [reflexivity|].
  rewrite (mask_get_where 0 valid S) by congruence.
  rewrite (mask_get_where 0 valid K) by congruence.
  rewrite (mask_get_where 0 valid T) by congruence.
  rewrite (mask_get_where nan valid sigma) by congruence.
  rewrite (mask_get_where false valid is_call) by congruence.
  unfold vadd, vsub, vmul, vdiv, vneg, sadd, smul, vdivs, vsubs.
  repeat (rewrite map_map || rewrite vmap2_map || rewrite vwhere_map).
  reflexivity.
Qed.

End GreeksFacts.

(** C4. Given arrays of one length [n], [compute_greeks_vectorized] returns
    five arrays of [n] entries. Row [i] of the five (delta, gamma, vega,
    theta, rho) is the five closed forms of the row's inputs where the
    combined mask holds (sigma finite, T > 0, S > 0, K > 0, sigma > 0), with
    the call or put form chosen by the row's own [is_call], and five
    sentinels where it does not hold. A row whose sigma is the sentinel has
    the five sentinels. *)
Theorem greeks_masking {M : MathLib} (S K T : list float) (r q : float)
  (sigma : list float) (is_call : list bool) (n : nat) :
  greek_inputs_of_length n S K T sigma is_call ->
  let g := compute_greeks_vectorized S K T r q sigma is_call in
  (length (g_delta g) = n /\ length (g_gamma g) = n /\ length (g_vega g) = n /\
   length (g_theta g) = n /\ length (g_rho g) = n) /\
  (forall i, (i < n)%nat ->
     greeks_at g i =
     if greeks_valid (nth i S 0) (nth i K 0) (nth i T 0) (nth i sigma nan)
     then greeks_formulas (nth i S 0) (nth i K 0) (nth i T 0) r q (nth i sigma nan)
            (nth i is_call false)
     else (nan, nan, nan, nan, nan)) /\
  (forall i, (i < n)%nat -> nth i sigma nan = nan ->
     greeks_at g i = (nan, nan, nan, nan, nan)).
Proof.
  intros Hin g.
  pose proof (valid_mask_length S K T sigma is_call n Hin) as Hv.
  assert (Hrows : forall i, (i < n)%nat ->
            greeks_at g i =
            if greeks_valid (nth i S 0) (nth i K 0) (nth i T 0) (nth i sigma nan)
            then greeks_formulas (nth i S 0) (nth i K 0) (nth i T 0) r q (nth i sigma nan)
                   (nth i is_call false)
            else (nan, nan, nan, nan, nan)).
  { intros i Hi. unfold g.
    rewrite (compute_greeks_normal S K T r q sigma is_call n Hin).
    rewrite <- (valid_mask_nth S K T sigma is_call n Hin i Hi).
    destruct (negb (any (valid_mask S K T sigma))) eqn:Hany.
    - apply negb_true_iff in Hany. rewrite (any_false_nth _ i Hany).
      unfold greeks_at, all_nan. cbn [g_delta g_gamma g_vega g_theta g_rho].
      rewrite (nth_repeat_any nan nan n i Hi). reflexivity.
    - unfold greeks_at, filled. cbn [g_delta g_gamma g_vega g_theta g_rho].
      rewrite !(mask_put_nth _ _ n i Hv).
      destruct (nth i (valid_mask S K T sigma) false); reflexivity. }
  split; [|split].
  - unfold g. rewrite (compute_greeks_normal S K T r q sigma is_call n Hin).
    destruct (negb (any (valid_mask S K T sigma)));
      unfold all_nan, filled; cbn [g_delta g_gamma g_vega g_theta g_rho];
      rewrite ?mask_put_length, !repeat_length; auto.
  - exact Hrows.
  - intros i Hi Hnan. rewrite (Hrows i Hi), Hnan. reflexivity.
Qed.

Lemma greeks_masking_witness :
  greek_inputs_of_length 2 [22161; 100] [22000; 100] [31 / 365; 0.5] [0.2352; nan]
    [true; false] /\
  greeks_at
    (compute_greeks_vectorized (M := Ref.math) [22161; 100] [22000; 100] [31 / 365; 0.5]
       0.04 0 [0.2352; nan] [true; false]) 1 = (nan, nan, nan, nan, nan).
Proof.
  assert (Hin : greek_inputs_of_length 2 [22161; 100] [22000; 100] [31 / 365; 0.5]
                  [0.2352; nan] [true; false])
    by (repeat split; reflexivity).
  split; [exact Hin|].
  exact (proj2 (proj2 (greeks_masking (M := Ref.math) [22161; 100] [22000; 100]
                         [31 / 365; 0.5] 0.04 0 [0.2352; nan] [true; false] 2 Hin))
           1%nat (le_n 2) eq_refl).
Defined.

(** ** Chunks and the pool *)

Lemma chunks_of_list {A : Type} (c : nat) (all_args : list A) :
  (0 < c)%nat -> chunks_of c all_args = Ret (chunks_list c all_args).
Proof.
  intros Hc. unfold chunks_of, py_range.
  destruct c as [|c]; [lia | reflexivity].
Qed.

Lemma chunk_count_step (n c : nat) :
  (0 < n)%nat -> (0 < c)%nat -> ((n + c - 1) / c = S ((n - c + c - 1) / c))%nat.
Proof.
  intros Hn Hc. destruct (Nat.le_gt_cases c n) as [Hle|Hgt].
  - replace (n + c - 1)%nat with ((n - c + c - 1) + 1 * c)%nat by lia.
    rewrite Nat.div_add by lia. lia.
  - replace (n + c - 1)%nat with ((n - 1) + 1 * c)%nat by lia.
    rewrite Nat.div_add by lia.
    replace (n - c + c - 1)%nat with (c - 1)%nat by lia.
    rewrite !Nat.div_small by lia. reflexivity.
Qed.

(** The first chunk is the first [c] rows; the others are the chunks of
    what is left. *)
Lemma chunks_list_cons {A : Type} (c : nat) (all_args : list A) :
  (0 < c)%nat -> all_args <> [] ->
  chunks_list c all_args = firstn c all_args :: chunks_list c (skipn c all_args).
Proof.
  intros Hc Hne. unfold chunks_list.
  assert (Hn : (0 < length all_args)%nat) by (destruct all_args; simpl; [congruence | lia]).
  rewrite (chunk_count_step _ c Hn Hc), length_skipn.
  cbn [seq map]. rewrite <- seq_shift, !map_map. f_equal.
  apply map_ext. intros j. rewrite skipn_skipn. f_equal. f_equal. lia.
Qed.

Lemma chunks_list_nil {A : Type} (c : nat) : (0 < c)%nat -> chunks_list c (@nil A) = [].
Proof.
  intros Hc. unfold chunks_list. simpl.
  rewrite Nat.div_small by lia. reflexivity.
Qed.

Lemma chunks_list_length {A : Type} (c : nat) (all_args : list A) :
  length (chunks_list c all_args) = ((length all_args + c - 1) / c)%nat.
Proof. unfold chunks_list. rewrite !length_map, length_seq. reflexivity. Qed.

Section PoolFacts.
Context {A B : Type}.
Variable f : A -> B.

Lemma finished_value_in (tasks : list A) (sched : list nat) (i : nat) (t : A) :
  In i sched -> nth_error tasks i = Some t ->
  finished_value (pool_finished sched f tasks) i = Some (f t).
Proof.
  intros Hin Ht. induction sched as [|j sched IH]; [destruct Hin|].
  cbn [pool_finished flat_map].
  destruct (Nat.eq_dec i j) as [<-|Hne].
  - rewrite Ht. simpl. rewrite Nat.eqb_refl. reflexivity.
  - destruct Hin as [Hj|Hin]; [congruence|].
    destruct (nth_error tasks j) as [tj|]; simpl.
    + apply Nat.eqb_neq in Hne. rewrite Hne. apply IH. exact Hin.
    + apply IH. exact Hin.
Qed.

Lemma imap_yield_all (tasks : list A) (sched : list nat) (count next : nat) :
  (forall i, (i < length tasks)%nat -> In i sched) ->
  (next + count = length tasks)%nat ->
  imap_yield (pool_finished sched f tasks) next count = map f (skipn next tasks).
Proof.
  intros Hall. revert next; induction count as [|count IH]; intros next Hlen.
  - rewrite skipn_all2 by lia. reflexivity.
  - cbn [imap_yield].
    destruct (nth_error tasks next) as [t|] eqn:Ht.
    + rewrite (finished_value_in tasks sched next t (Hall next ltac:(lia)) Ht).
      rewrite (IH (S next)) by lia.
      assert (Hsk : skipn next tasks = t :: skipn (S next) tasks).
      { clear -Ht. revert next Ht; induction tasks as [|a l IHl]; intros [|k] H;
          simpl in *; try discriminate.
        - injection H as ->. reflexivity.
        - apply IHl. exact H. }
      rewrite Hsk. reflexivity.
    + apply nth_error_None in Ht. lia.
Qed.

(** Whatever order the tasks finish in, [imap] hands back the values in
    task order. *)
Lemma pool_imap_ordered (W : nat) (tasks : list A) (sched : list nat) :
  (0 < W)%nat -> Permutation sched (seq 0 (length tasks)) ->
  pool_imap W sched f tasks = Ret (map f tasks).
Proof.
  intros HW Hperm. unfold pool_imap. destruct W as [|W]; [lia|]. simpl. f_equal.
  apply (imap_yield_all tasks sched (length tasks) 0); [|reflexivity].
  intros i Hi. apply (Permutation_in _ (Permutation_sym Hperm)). apply in_seq. lia.
Qed.
End PoolFacts.

Lemma mapM_app {A B : Type} (f : A -> outcome B) (l1 l2 : list A) :
  mapM f (l1 ++ l2) =
  (r1 <- mapM f l1 ;; r2 <- mapM f l2 ;; Ret (r1 ++ r2)).
Proof.
  induction l1 as [|a l1 IH]; simpl.
  - destruct (mapM f l2); reflexivity.
  - destruct (f a) as [b|e]; simpl; [|reflexivity].
    rewrite IH. destruct (mapM f l1) as [r1|e]; simpl; [|reflexivity].
    destruct (mapM f l2); reflexivity.
Qed.

Lemma mapM_length {A B : Type} (f : A -> outcome B) (l : list A) (bs : list B) :
  mapM f l = Ret bs -> length bs = length l.
Proof.
  revert bs; induction l as [|a l IH]; intros bs; simpl.
  - intros H; injection H as <-. reflexivity.
  - destruct (f a) as [b|e]; simpl; [|discriminate].
    destruct (mapM f l) as [r|e]; simpl; [|discriminate].
    intros H; injection H as <-. simpl. f_equal. apply IH. reflexivity.
Qed.

Lemma skipn_repeat_sub {A : Type} (a : A) (m k : nat) :
  skipn m (repeat a k) = repeat a (k - m).
Proof.
  revert k; induction m as [|m IH]; intros [|k]; simpl; auto.
Qed.

(** Writing [vs] over the first nan entries after the prefix [pre]. *)
Lemma slice_assign_next (pre vs : list float) (k : nat) :
  (length vs <= k)%nat ->
  slice_assign (pre ++ repeat nan k) (length pre) (length pre + length vs) vs =
  Ret ((pre ++ vs) ++ repeat nan (k - length vs)).
Proof.
  intros Hle. unfold slice_assign.
  rewrite length_app, repeat_length.
  replace (Nat.min (length pre) (length pre + k)) with (length pre) by lia.
  replace (Nat.max (length pre) (Nat.min (length pre + length vs) (length pre + k)))
    with (length pre + length vs)%nat by lia.
  replace (length pre + length vs - length pre)%nat with (length vs) by lia.
  rewrite Nat.eqb_refl. f_equal.
  rewrite firstn_app, firstn_all, Nat.sub_diag, firstn_O, app_nil_r.
  rewrite skipn_app, skipn_all2 by lia.
  replace (length pre + length vs - length pre)%nat with (length vs) by lia.
  rewrite skipn_repeat_sub. simpl. rewrite <- app_assoc. reflexivity.
Qed.

Section OrchestratorFacts.
Context {M : MathLib} {R : RootFinder}.

(** Placing the chunk results of [all_args], from task index [j] on, into an
    array whose first [j * c] entries [pre] are already placed. *)
Lemma place_results_chunks (c : nat) :
  (0 < c)%nat ->
  forall (n : nat) (all_args : list iv_args) (pre : list float) (j : nat),
    length all_args = n ->
    (all_args <> [] -> length pre = (j * c)%nat) ->
    place_results c j (map _solve_iv_chunk (chunks_list c all_args))
      (pre ++ repeat nan (length all_args)) =
    (vs <- mapM _solve_iv all_args ;; Ret (pre ++ vs)).
Proof.
  intros Hc n. induction n as [n IH] using lt_wf_ind.
  intros all_args pre j Hn Hpre.
  destruct all_args as [|a rest] eqn:Hargs.
  - rewrite (chunks_list_nil c Hc). reflexivity.
  - rewrite <- Hargs in *. assert (Hne : all_args <> []) by (rewrite Hargs; discriminate).
    rewrite (chunks_list_cons c all_args Hc Hne). cbn [map place_results].
    assert (Hsplit : mapM _solve_iv all_args =
                     (r1 <- mapM _solve_iv (firstn c all_args) ;;
                      r2 <- mapM _solve_iv (skipn c all_args) ;; Ret (r1 ++ r2)))
      by (rewrite <- mapM_app, firstn_skipn; reflexivity).
    rewrite Hsplit. unfold _solve_iv_chunk at 1.
    destruct (mapM _solve_iv (firstn c all_args)) as [r1|e] eqn:H1; [|reflexivity].
    cbn [bind].
    pose proof (mapM_length _ _ _ H1) as Hr1. rewrite length_firstn in Hr1.
    rewrite <- (Hpre Hne).
    rewrite (slice_assign_next pre r1 (length all_args)) by lia.
    cbn [bind].
    replace (length all_args - length r1)%nat with (length (skipn c all_args))
      by (rewrite length_skipn; lia).
    rewrite (IH (length (skipn c all_args))); try reflexivity.
    + destruct (mapM _solve_iv (skipn c all_args)) as [r2|e]; [|reflexivity].
      cbn [bind]. rewrite app_assoc. reflexivity.
    + rewrite length_skipn.
      assert (0 < length all_args)%nat by (rewrite Hargs; simpl; lia). lia.
    + intros Hrest. rewrite length_app, (Hpre Hne), Hr1.
      assert (c < length all_args)%nat.
      { destruct (Nat.lt_ge_cases c (length all_args)) as [|Hge]; [assumption|].
        rewrite (skipn_all2 all_args Hge) in Hrest. congruence. }
      lia.
Qed.
End OrchestratorFacts.

(** C3. For every list of argument tuples, every nonzero chunk size, every
    pool of at least one worker and every order in which the chunks finish
    (a permutation of the chunk indices), the IV stage of [main], which
    cuts the list into contiguous chunks, has [_solve_iv_chunk] solve each
    chunk and writes each chunk's results at the chunk's start offset, gives
    exactly what the per-row solver gives over the whole list in one pass:
    the same array, row for row in input order, or the same exception. *)
Theorem chunked_solve_preserves_order {M : MathLib} {R : RootFinder}
  (SUB_CHUNK W : nat) (sched : list nat) (all_args : list iv_args) :
  (0 < SUB_CHUNK)%nat -> (0 < W)%nat ->
  Permutation sched (seq 0 ((length all_args + SUB_CHUNK - 1) / SUB_CHUNK)) ->
  main_iv SUB_CHUNK W sched all_args = sequential_iv all_args.
Proof.
  intros Hc HW Hperm. unfold main_iv, sequential_iv.
  rewrite (chunks_of_list SUB_CHUNK all_args Hc). cbn [bind].
  rewrite (pool_imap_ordered _solve_iv_chunk W (chunks_list SUB_CHUNK all_args) sched HW)
    by (rewrite chunks_list_length; exact Hperm).
  cbn [bind].
  rewrite (place_results_chunks SUB_CHUNK Hc (length all_args) all_args [] 0 eq_refl)
    by reflexivity.
  destruct (mapM _solve_iv all_args); reflexivity.
Qed.

Lemma chunked_solve_preserves_order_witness :
  Permutation [1; 0; 2]%nat (seq 0 ((5 + 2 - 1) / 2)) /\
  main_iv (M := Ref.math) (R := Ref.finder) 2 2 [1; 0; 2]%nat
    [(100, 100, 1, 0, 0, 10, true); (100, 10000, 1 / 365, 0.05, 0, 1, true);
     (100, 100, 0, 0, 0, 10, true); (22161, 22000, 31 / 365, 0.04, 0, 727.8, true);
     (100, 90, 0.5, 0.068, 0, 2, false)] =
  sequential_iv (M := Ref.math) (R := Ref.finder)
    [(100, 100, 1, 0, 0, 10, true); (100, 10000, 1 / 365, 0.05, 0, 1, true);
     (100, 100, 0, 0, 0, 10, true); (22161, 22000, 31 / 365, 0.04, 0, 727.8, true);
     (100, 90, 0.5, 0.068, 0, 2, false)].
Proof.
  assert (Hp : Permutation [1; 0; 2]%nat (seq 0 ((5 + 2 - 1) / 2)))
    by (apply perm_swap).
  split; [exact Hp|].
  exact (chunked_solve_preserves_order (M := Ref.math) (R := Ref.finder) 2 2 [1; 0; 2]%nat
           [(100, 100, 1, 0, 0, 10, true); (100, 10000, 1 / 365, 0.05, 0, 1, true);
            (100, 100, 0, 0, 0, 10, true); (22161, 22000, 31 / 365, 0.04, 0, 727.8, true);
            (100, 90, 0.5, 0.068, 0, 2, false)]
           (le_S _ _ (le_n 1)) (le_S _ _ (le_n 1)) Hp).
Defined.

(** ** Pricing at sigma and solving back *)

Section RowResidual.
Context {M : MathLib}.
Variables (mp S K T r : float) (call : bool) (tol : float).

(** The step keeps the result of a row, or sets it to a sigma that passed
    the convergence test. *)
Lemma row_step_result_cases (row : nr_row) :
  row_result (spec_row_step mp S K T r call tol row) = row_result row \/
  ((abs (nr_diff mp S K T r (row_sigma row) call) <? tol) = true /\
   row_result (spec_row_step mp S K T r call tol row) = row_sigma row).
Proof.
  unfold spec_row_step. destruct (negb (row_active row)); [left; reflexivity|].
  cbv zeta. destruct (abs _ <? tol); [right; split; reflexivity|].
  destruct (_ <? 1e-12); [left; reflexivity|].
  destruct (_ || _); left; reflexivity.
Qed.
End RowResidual.

Section NewtonResidual.
Context {M : MathLib}.
Variables (market_price S K T : list float) (r : float) (is_call : list bool).
Variable tol : float.
Variable n : nat.
Hypothesis Hin : inputs_of_length n market_price S K T is_call.

Local Abbreviation residual_ok := (residual_ok n market_price S K T r is_call tol).

Lemma nr_iteration_residual (st : nr_state) :
  wf_state n st -> residual_ok st ->
  residual_ok (nr_iteration market_price S K T r is_call tol st).
Proof.
  intros Hwf Hok i Hi.
  pose proof (nr_iteration_row market_price S K T r is_call tol n Hin st i Hwf Hi) as Hrow.
  assert (Hres : nth i (st_result (nr_iteration market_price S K T r is_call tol st)) nan =
                 row_result (spec_row_step (nth i market_price 0) (nth i S 0) (nth i K 0)
                               (nth i T 0) r (nth i is_call false) tol (row_at st i)))
    by (rewrite <- Hrow; reflexivity).
  rewrite Hres.
  destruct (row_step_result_cases (nth i market_price 0) (nth i S 0) (nth i K 0)
              (nth i T 0) r (nth i is_call false) tol (row_at st i)) as [-> | [Hc ->]].
  - apply (Hok i Hi).
  - right. exact Hc.
Qed.

Lemma nr_loop_residual (max_iter : nat) (st : nr_state) :
  nr_inv n st -> residual_ok st ->
  residual_ok (nr_loop market_price S K T r is_call tol max_iter st).
Proof.
  revert st; induction max_iter as [|k IH]; intros st Hinv Hok; simpl; [exact Hok|].
  destruct (negb (any (st_active st))); [exact Hok|].
  apply IH.
  - apply (nr_iteration_inv market_price S K T r is_call tol n Hin st Hinv).
  - apply nr_iteration_residual; [apply Hinv | exact Hok].
Qed.

Lemma nr_init_residual : residual_ok (nr_init market_price).
Proof.
  intros i Hi. left. unfold nr_init. cbn [st_result].
  destruct Hin as (Hmp & _). rewrite Hmp. apply nth_repeat_any. exact Hi.
Qed.
End NewtonResidual.

(** C1, as the code has it. Whatever market price a row carries, so also
    when it is the Black-Scholes price at some sigma: an entry of the array
    [vectorized_iv] returns is the sentinel or a sigma whose model price is
    within the tolerance of the market price, the tolerance bounding the
    price residual and not the distance to the sigma that produced the
    price; and a value [_solve_iv] returns is the sentinel or the root the
    root-finder reports for priceDiff on [IV_LOWER, IV_UPPER] with maxiter
    100 and xtol 1e-8, on a row that passed the geometry guard. *)
Theorem solve_back_guarantees {M : MathLib} {R : RootFinder}
  (market_price S K T : list float) (r : float) (is_call : list bool) (tol : float)
  (n max_iter : nat) :
  inputs_of_length n market_price S K T is_call ->
  (forall i, (i < n)%nat ->
     let v := nth i (vectorized_iv market_price S K T r is_call tol max_iter) nan in
     v = nan \/
     (abs (nr_diff (nth i market_price 0) (nth i S 0) (nth i K 0) (nth i T 0) r v
             (nth i is_call false)) <? tol) = true) /\
  (forall args v,
     _solve_iv args = Ret v ->
     v = nan \/
     (invalid_geometry args = false /\
      brentq (price_diff args) IV_LOWER IV_UPPER 100 1e-8 = Ret v)).
Proof.
  intros Hin. split.
  - intros i Hi.
    apply (nr_loop_residual market_price S K T r is_call tol n Hin max_iter
             (nr_init market_price) (nr_init_inv market_price S K T is_call n Hin)
             (nr_init_residual market_price S K T r is_call tol n Hin) i Hi).
  - intros args v Hv. destruct (invalid_geometry args) eqn:Hg.
    + rewrite (solve_iv_invalid args Hg) in Hv. injection Hv as <-. left. reflexivity.
    + rewrite (solve_iv_valid args Hg) in Hv.
      destruct (0 <? _); [injection Hv as <-; left; reflexivity|].
      destruct (brentq (price_diff args) IV_LOWER IV_UPPER 100 1e-8) as [w|e].
      * simpl in Hv. injection Hv as <-. right. split; reflexivity.
      * simpl in Hv. destruct (numerical_failure e); [|discriminate].
        injection Hv as <-. left. reflexivity.
Qed.

Lemma solve_back_guarantees_witness :
  inputs_of_length 1 [727.8] [22161] [22000] [31 / 365] [true] /\
  (nth 0 (vectorized_iv (M := Ref.math) [727.8] [22161] [22000] [31 / 365] 0.04 [true]
            1e-6 100) nan = nan \/
   (abs (nr_diff (M := Ref.math) 727.8 22161 22000 (31 / 365) 0.04
           (nth 0 (vectorized_iv (M := Ref.math) [727.8] [22161] [22000] [31 / 365] 0.04
                     [true] 1e-6 100) nan) true) <? 1e-6) = true).
Proof.
  assert (Hin : inputs_of_length 1 [727.8] [22161] [22000] [31 / 365] [true])
    by (repeat split; reflexivity).
  split; [exact Hin|].
  exact (proj1 (solve_back_guarantees (M := Ref.math) (R := Ref.finder) [727.8] [22161]
                  [22000] [31 / 365] 0.04 [true] 1e-6 1 100 Hin) 0%nat (le_n 1)).
Defined.

(** C1 as stated fails on both solvers. A call on S=100, K=150, T=0.01 at
    r=0.065 priced at sigma = 0.5 is worth about 2e-16, a positive price
    below the tolerance 1e-6: the Newton solver starts at 0.3, finds a
    residual below the tolerance at once and returns 0.3, which is 0.2 away
    from 0.5. A call on S=100, K=10000, T=1/365 priced at sigma = 0.2 has d1
    near -440, where the normal distribution underflows to zero: the price
    is 0, and the bracketed solver returns the sentinel for a market price
    that is not strictly positive. *)
Lemma round_trip_fails :
  (0 <? nr_price (M := Ref.math) 100 150 0.01 0.065 0.5 true) = true /\
  vectorized_iv (M := Ref.math) [nr_price (M := Ref.math) 100 150 0.01 0.065 0.5 true]
    [100] [150] [0.01] 0.065 [true] 1e-6 100 = [0.3] /\
  (1e-6 <? abs (0.3 - 0.5)) = true /\
  _solve_iv (M := Ref.math) (R := Ref.finder)
    (100, 10000, 1 / 365, 0.068, 0,
     _bs_price (M := Ref.math) 100 10000 (1 / 365) 0.068 0 0.2 true, true) = Ret nan.
Proof. vm_compute. repeat split; reflexivity. Qed.

(** * Further properties of the code *)

(** ** One row of the Newton solver taken alone *)

Lemma iter_fixed {A : Type} (f : A -> A) (x : A) (k : nat) :
  f x = x -> Nat.iter k f x = x.
Proof. intros H. induction k as [|k IH]; simpl; [reflexivity | rewrite IH; exact H]. Qed.

Section RowRun.
Context {M : MathLib}.
Variables (mp S K T r : float) (call : bool) (tol : float).

Local Abbreviation row_step := (spec_row_step mp S K T r call tol).
Local Abbreviation inv := (row_inv mp S K T r call tol).

Lemma row_init_inv : inv row_init.
Proof. split; [intros _; split; [reflexivity | left; reflexivity] | left; reflexivity]. Qed.

Lemma row_step_inv (row : nr_row) : inv row -> inv (row_step row).
Proof.
  destruct (row_active row) eqn:Ha;
    [|intros Hinv; rewrite (row_step_inactive mp S K T r call tol row Ha); exact Hinv].
  intros [Hact Hres]. destruct (Hact Ha) as [Hnan Hsig].
  unfold spec_row_step. rewrite Ha. cbn [negb]. cbv zeta.
  destruct (abs (nr_diff mp S K T r (row_sigma row) call) <? tol) eqn:Hc;
    [|destruct (nr_vega S K T r (row_sigma row) <? 1e-12); [|destruct (_ || _) eqn:Hb]];
    unfold row_inv; cbn [row_active row_result row_sigma].
  - split; [intros H; discriminate H|]. right. repeat split; assumption.
  - split; [intros H; discriminate H | left; exact Hnan].
  - split; [intros H; discriminate H | left; exact Hnan].
  - split; [|left; exact Hnan].
    intros _. split; [exact Hnan | right; exact Hb].
Qed.

Lemma row_run_inv (k : nat) (row : nr_row) : inv row -> inv (Nat.iter k row_step row).
Proof. intros H. induction k as [|k IH]; simpl; [exact H | apply row_step_inv, IH]. Qed.

Lemma newton_row_run_inv (budget : nat) :
  inv (newton_row_run mp S K T r call tol budget).
Proof. apply row_run_inv, row_init_inv. Qed.

(** A row whose result is not the sentinel is settled: further steps leave
    it as it is. *)
Lemma row_settled (j : nat) (row : nr_row) :
  inv row -> row_result row <> nan -> Nat.iter j row_step row = row.
Proof.
  intros [_ [Hnan | [Hoff _]]] Hne; [contradiction|].
  apply iter_fixed. apply row_step_inactive. exact Hoff.
Qed.


(** One round of the scalar loop of VI.py, for a nonzero strike: the same
    price difference and the same update as in the array code. *)
Lemma iv_loop_step (k : nat) (sigma : float) :
  (K =? 0) = false ->
  iv_loop mp S K T r call tol (Datatypes.S k) sigma =
  if abs (nr_diff mp S K T r sigma call) <? tol then Ret sigma
  else iv_loop mp S K T r call tol k
         (sigma - nr_diff mp S K T r sigma call / nr_vega S K T r sigma).
Proof. intros HK. cbn [iv_loop]. rewrite HK. reflexivity. Qed.


(** A returned value is returned under every larger budget. *)
Lemma iv_loop_more_budget (k j : nat) (sigma v : float) :
  iv_loop mp S K T r call tol k sigma = Ret v ->
  iv_loop mp S K T r call tol (k + j) sigma = Ret v.
Proof.
  revert sigma. induction k as [|k IH]; intros sigma; [discriminate|].
  cbn [Nat.add iv_loop]. destruct (K =? 0); [discriminate|]. cbv zeta.
  match goal with |- context [if ?c then Ret sigma else _] => destruct c end;
    [intros H; exact H | apply IH].
Qed.
End RowRun.

(** Against a nan market price no sigma passes the convergence test. *)
Section NanPrice.
Context {M : MathLib}.
Variables (S K T r : float) (call : bool) (tol : float).

Lemma nr_diff_nan_price (s : float) : (abs (nr_diff nan S K T r s call) <? tol) = false.
Proof. unfold nr_diff. rewrite sub_nan_r. change (abs nan) with nan. apply ltb_nan_l. Qed.

Lemma row_step_nan_price (row : nr_row) :
  row_result (spec_row_step nan S K T r call tol row) = row_result row.
Proof.
  unfold spec_row_step. destruct (negb (row_active row)); [reflexivity|]. cbv zeta.
  rewrite nr_diff_nan_price.
  destruct (_ <? 1e-12); [reflexivity|]. destruct (_ || _); reflexivity.
Qed.

Lemma row_run_nan_price (k : nat) (row : nr_row) :
  row_result (Nat.iter k (spec_row_step nan S K T r call tol) row) = row_result row.
Proof.
  induction k as [|k IH]; [reflexivity|].
  rewrite Nat.iter_succ, row_step_nan_price. exact IH.
Qed.

Lemma iv_loop_nan_price (k : nat) (sigma : float) :
  (K =? 0) = false -> iv_loop nan S K T r call tol k sigma = Raise ValueError.
Proof.
  intros HK. revert sigma. induction k as [|k IH]; intros sigma; [reflexivity|].
  rewrite (iv_loop_step nan S K T r call tol k sigma HK), nr_diff_nan_price. apply IH.
Qed.
End NanPrice.

(** ** The rows of the Newton solver do not interact *)

Section NewtonRows.
Context {M : MathLib}.
Variables (market_price S K T : list float) (r : float) (is_call : list bool).
Variable tol : float.
Variable n : nat.
Hypothesis Hin : inputs_of_length n market_price S K T is_call.

(** Row [i] after the loop is row [i] taken alone through as many steps as
    the budget allows: the early exit of the loop, taken when no row is
    active, skips steps that change nothing. *)
Lemma nr_loop_row (k : nat) (st : nr_state) (i : nat) :
  wf_state n st -> (i < n)%nat ->
  row_at (nr_loop market_price S K T r is_call tol k st) i =
  Nat.iter k (spec_row_step (nth i market_price 0) (nth i S 0) (nth i K 0) (nth i T 0) r
                (nth i is_call false) tol) (row_at st i).
Proof.
  revert st. induction k as [|k IH]; intros st Hwf Hi; [reflexivity|].
  cbn [nr_loop]. destruct (negb (any (st_active st))) eqn:Hany.
  - symmetry. apply iter_fixed. apply row_step_inactive.
    apply negb_true_iff in Hany. apply (any_false_nth _ i Hany).
  - rewrite (IH _ (nr_iteration_wf market_price S K T r is_call tol n Hin st Hwf) Hi).
    rewrite (nr_iteration_row market_price S K T r is_call tol n Hin st i Hwf Hi).
    rewrite Nat.iter_succ_r. reflexivity.
Qed.

Lemma row_at_init (i : nat) : (i < n)%nat -> row_at (nr_init market_price) i = row_init.
Proof.
  intros Hi. destruct Hin as (Hmp & _). unfold row_at, nr_init, row_init.
  cbn [st_sigma st_result st_active]. rewrite Hmp.
  rewrite !nth_repeat_any by exact Hi. reflexivity.
Qed.

Lemma vectorized_iv_row (max_iter i : nat) :
  (i < n)%nat ->
  row_at (vectorized_iv_state market_price S K T r is_call tol max_iter) i =
  newton_row_run (nth i market_price 0) (nth i S 0) (nth i K 0) (nth i T 0) r
    (nth i is_call false) tol max_iter.
Proof.
  intros Hi. unfold vectorized_iv_state, newton_row_run.
  rewrite (nr_loop_row max_iter (nr_init market_price) i
             (proj1 (nr_init_inv market_price S K T is_call n Hin)) Hi).
  rewrite (row_at_init i Hi). reflexivity.
Qed.

Lemma vectorized_iv_entry (max_iter i : nat) :
  (i < n)%nat ->
  nth i (vectorized_iv market_price S K T r is_call tol max_iter) nan =
  row_result (newton_row_run (nth i market_price 0) (nth i S 0) (nth i K 0) (nth i T 0) r
                (nth i is_call false) tol max_iter).
Proof.
  intros Hi. rewrite <- (vectorized_iv_row max_iter i Hi). reflexivity.
Qed.

Lemma vectorized_iv_length (max_iter : nat) :
  length (vectorized_iv market_price S K T r is_call tol max_iter) = n.
Proof.
  apply (nr_loop_inv market_price S K T r is_call tol n Hin max_iter
           (nr_init market_price) (nr_init_inv market_price S K T is_call n Hin)).
Qed.
End NewtonRows.

Lemma nr_loop_settled {M : MathLib} (market_price S K T : list float) (r : float)
  (is_call : list bool) (tol : float) (j : nat) (st : nr_state) :
  any (st_active st) = false -> nr_loop market_price S K T r is_call tol j st = st.
Proof. intros H. destruct j; cbn [nr_loop]; [reflexivity | rewrite H; reflexivity]. Qed.

Lemma nr_loop_add {M : MathLib} (market_price S K T : list float) (r : float)
  (is_call : list bool) (tol : float) (k j : nat) (st : nr_state) :
  nr_loop market_price S K T r is_call tol (k + j) st =
  nr_loop market_price S K T r is_call tol j (nr_loop market_price S K T r is_call tol k st).
Proof.
  revert st. induction k as [|k IH]; intros st; [reflexivity|].
  cbn [Nat.add nr_loop]. destruct (negb (any (st_active st))) eqn:Hany.
  - symmetry. apply nr_loop_settled. apply negb_true_iff. exact Hany.
  - apply IH.
Qed.

Lemma nth_map_seq {A : Type} (f : nat -> A) (d : A) (n i : nat) :
  (i < n)%nat -> nth i (map f (seq 0 n)) d = f i.
Proof.
  intros Hi. rewrite (nth_indep _ d (f 0%nat)) by (rewrite length_map, length_seq; exact Hi).
  rewrite (map_nth f (seq 0 n) 0%nat i), seq_nth by exact Hi. reflexivity.
Qed.

(** ** Order of binary64 numbers *)

(** Comparing the other way round gives the opposite answer. *)
Lemma SFcompare_swap (x y : spec_float) :
  SFcompare y x = option_map CompOpp (SFcompare x y).
Proof.
  destruct x as [sx|sx| |sx mx ex], y as [sy|sy| |sy my ey]; try reflexivity;
    try (destruct sx; reflexivity); try (destruct sy; reflexivity);
    try (destruct sx, sy; reflexivity).
  cbn [SFcompare option_map].
  rewrite (Z.compare_antisym ex ey).
  pose proof (Pos.compare_cont_antisym mx my Eq) as Hp. cbn [CompOpp] in Hp.
  rewrite <- Hp. clear Hp.
  destruct sx, sy; try reflexivity; cbn [CompOpp];
    destruct (Z.compare ex ey); cbn [CompOpp]; try reflexivity.
Qed.

Lemma not_nan_SF (x : float) : x <> nan -> Prim2SF x <> S754_nan.
Proof. intros H Hn. apply H. apply Prim2SF_inj. rewrite Hn. reflexivity. Qed.

Lemma SFcompare_numbers (x y : spec_float) :
  x <> S754_nan -> y <> S754_nan -> SFcompare x y <> None.
Proof.
  destruct x as [sx|sx| |sx mx ex], y as [sy|sy| |sy my ey]; intros Hx Hy;
    try congruence; cbn; discriminate.
Qed.

(** Between two numbers, [x <= y] fails exactly when [y < x] holds. *)
Lemma leb_false_ltb (x y : float) :
  x <> nan -> y <> nan -> (x <=? y) = false -> (y <? x) = true.
Proof.
  intros Hx Hy. rewrite leb_spec, ltb_spec. unfold SFleb, SFltb.
  rewrite (SFcompare_swap (Prim2SF x) (Prim2SF y)).
  pose proof (SFcompare_numbers _ _ (not_nan_SF x Hx) (not_nan_SF y Hy)) as Hc.
  destruct (SFcompare (Prim2SF x) (Prim2SF y)) as [[| |]|]; cbn; congruence.
Qed.

Lemma ltb_false_leb (x y : float) :
  x <> nan -> y <> nan -> (y <? x) = false -> (x <=? y) = true.
Proof.
  intros Hx Hy. rewrite leb_spec, ltb_spec. unfold SFleb, SFltb.
  rewrite (SFcompare_swap (Prim2SF x) (Prim2SF y)).
  pose proof (SFcompare_numbers _ _ (not_nan_SF x Hx) (not_nan_SF y Hy)) as Hc.
  destruct (SFcompare (Prim2SF x) (Prim2SF y)) as [[| |]|]; cbn; congruence.
Qed.

(** A number that passed the divergence guard lies in (0, 10]. *)
Lemma guard_passed_range (x : float) :
  x <> nan -> bad_sigma_val x = false -> (0 <? x) = true /\ (x <=? 10) = true.
Proof.
  intros Hx Hb. unfold bad_sigma_val in Hb. apply orb_false_iff in Hb.
  destruct Hb as [H0 H10]. split.
  - apply leb_false_ltb; [exact Hx | | exact H0].
    intros H. apply (f_equal Prim2SF) in H. vm_compute in H. discriminate H.
  - apply ltb_false_leb; [exact Hx | | exact H10].
    intros H. apply (f_equal Prim2SF) in H. vm_compute in H. discriminate H.
Qed.

Lemma is_nan_true_eq (x : float) : is_nan x = true -> x = nan.
Proof.
  unfold is_nan. rewrite eqb_spec. intros H.
  destruct (Prim2SF x) as [s|s| |s m e] eqn:Hx.
  - rewrite SFeqb_refl in H by discriminate. discriminate H.
  - rewrite SFeqb_refl in H by discriminate. discriminate H.
  - apply Prim2SF_inj. rewrite Hx. reflexivity.
  - rewrite SFeqb_refl in H by discriminate. discriminate H.
Qed.

Lemma nan_or_number (x : float) : x = nan \/ x <> nan.
Proof.
  destruct (is_nan x) eqn:H; [left; apply is_nan_true_eq; exact H|].
  right. intros ->. discriminate H.
Qed.


Lemma pos_not_leb_zero (x : float) : (0 <? x) = true -> (x <=? 0) = false.
Proof.
  rewrite ltb_spec, leb_spec. change (Prim2SF 0) with (S754_zero false).
  intros H. apply SFltb_zero_pos in H.
  destruct (Prim2SF x) as [s|s| |s m e]; simpl in H; try tauto; destruct s; try tauto;
    reflexivity.
Qed.

(** ** What a row run ends with *)

Section RowRunResult.
Context {M : MathLib}.
Variables (mp S K T r : float) (call : bool) (tol : float).

(** The result of a row run is the sentinel or a number in (0, 10]. *)
Lemma newton_row_run_range (budget : nat) :
  row_result (newton_row_run mp S K T r call tol budget) = nan \/
  ((0 <? row_result (newton_row_run mp S K T r call tol budget)) = true /\
   (row_result (newton_row_run mp S K T r call tol budget) <=? 10) = true).
Proof.
  destruct (nan_or_number (row_result (newton_row_run mp S K T r call tol budget)))
    as [Hn|Hn]; [left; exact Hn | right].
  destruct (newton_row_run_inv mp S K T r call tol budget) as [_ [Hnan | (_ & Hsig & _)]];
    [contradiction|].
  destruct Hsig as [-> | Hg]; [split; reflexivity|].
  apply guard_passed_range; assumption.
Qed.

End RowRunResult.

(** ** The Newton solver, row by row and batch by batch *)

(** X1. The rows of a batch do not interact in [vectorized_iv]: for arrays
    of one length [n], entry [i] of the returned array is the result of row
    [i] taken alone through [max_iter] iterations of the checks and the
    update, started from sigma 0.3, with the row's own market price, S, K, T
    and option type. Masks, index arrays and the early exit of the loop have
    no effect on the value of a row. *)
Theorem newton_rows_independent {M : MathLib} (market_price S K T : list float)
  (r : float) (is_call : list bool) (tol : float) (n max_iter : nat) :
  inputs_of_length n market_price S K T is_call ->
  vectorized_iv market_price S K T r is_call tol max_iter =
  map (fun i =>
         row_result (newton_row_run (nth i market_price 0) (nth i S 0) (nth i K 0)
                       (nth i T 0) r (nth i is_call false) tol max_iter))
      (seq 0 n).
Proof.
  intros Hin.
  pose proof (vectorized_iv_length market_price S K T r is_call tol n Hin max_iter) as Hlen.
  apply (nth_ext _ _ nan nan).
  - rewrite length_map, length_seq. exact Hlen.
  - intros i Hi. rewrite Hlen in Hi.
    rewrite (nth_map_seq _ nan n i Hi).
    apply (vectorized_iv_entry market_price S K T r is_call tol n Hin max_iter i Hi).
Qed.

Lemma newton_rows_independent_witness :
  inputs_of_length 2 [727.8; 1] [22161; 100] [22000; 10000] [31 / 365; 1 / 365]
    [true; true] /\
  vectorized_iv (M := Ref.math) [727.8; 1] [22161; 100] [22000; 10000]
    [31 / 365; 1 / 365] 0.04 [true; true] 1e-6 100 =
  [row_result (newton_row_run (M := Ref.math) 727.8 22161 22000 (31 / 365) 0.04 true
                 1e-6 100);
   row_result (newton_row_run (M := Ref.math) 1 100 10000 (1 / 365) 0.04 true 1e-6 100)].
Proof.
  assert (Hin : inputs_of_length 2 [727.8; 1] [22161; 100] [22000; 10000]
                  [31 / 365; 1 / 365] [true; true])
    by (repeat split; reflexivity).
  split; [exact Hin|].
  exact (newton_rows_independent (M := Ref.math) [727.8; 1] [22161; 100] [22000; 10000]
           [31 / 365; 1 / 365] 0.04 [true; true] 1e-6 2 100 Hin).
Defined.

(** X2. Solving two batches in one call of [vectorized_iv] gives the
    results of the two separate calls, one after the other: a frame can be
    solved whole or in pieces with the same values. *)
Theorem newton_batches_concatenate {M : MathLib}
  (mp1 S1 K1 T1 mp2 S2 K2 T2 : list float) (c1 c2 : list bool)
  (r tol : float) (n1 n2 max_iter : nat) :
  inputs_of_length n1 mp1 S1 K1 T1 c1 ->
  inputs_of_length n2 mp2 S2 K2 T2 c2 ->
  vectorized_iv (mp1 ++ mp2) (S1 ++ S2) (K1 ++ K2) (T1 ++ T2) r (c1 ++ c2) tol max_iter =
  vectorized_iv mp1 S1 K1 T1 r c1 tol max_iter ++
  vectorized_iv mp2 S2 K2 T2 r c2 tol max_iter.
Proof.
  intros H1 H2.
  assert (H12 : inputs_of_length (n1 + n2) (mp1 ++ mp2) (S1 ++ S2) (K1 ++ K2) (T1 ++ T2)
                  (c1 ++ c2)).
  { destruct H1 as (? & ? & ? & ? & ?), H2 as (? & ? & ? & ? & ?).
    unfold inputs_of_length. rewrite !length_app. repeat split; congruence. }
  pose proof (vectorized_iv_length mp1 S1 K1 T1 r c1 tol n1 H1 max_iter) as L1.
  pose proof (vectorized_iv_length mp2 S2 K2 T2 r c2 tol n2 H2 max_iter) as L2.
  pose proof (vectorized_iv_length _ _ _ _ r _ tol _ H12 max_iter) as L12.
  destruct H1 as (Hm1 & Hs1 & Hk1 & Ht1 & Hc1).
  apply (nth_ext _ _ nan nan); [rewrite length_app; lia|].
  intros i Hi. rewrite L12 in Hi.
  rewrite (vectorized_iv_entry _ _ _ _ r _ tol _ H12 max_iter i Hi).
  destruct (Nat.lt_ge_cases i n1) as [Hlt|Hge].
  - rewrite (app_nth1 (vectorized_iv mp1 S1 K1 T1 r c1 tol max_iter)) by lia.
    rewrite (vectorized_iv_entry mp1 S1 K1 T1 r c1 tol n1
               (conj Hm1 (conj Hs1 (conj Hk1 (conj Ht1 Hc1)))) max_iter i Hlt).
    rewrite !app_nth1 by lia. reflexivity.
  - rewrite (app_nth2 (vectorized_iv mp1 S1 K1 T1 r c1 tol max_iter)) by lia.
    rewrite L1.
    rewrite (vectorized_iv_entry mp2 S2 K2 T2 r c2 tol n2 H2 max_iter (i - n1))
      by lia.
    rewrite !app_nth2 by lia.
    rewrite Hm1, Hs1, Hk1, Ht1, Hc1. reflexivity.
Qed.

Lemma newton_batches_concatenate_witness :
  inputs_of_length 1 [727.8] [22161] [22000] [31 / 365] [true] /\
  inputs_of_length 1 [1] [100] [10000] [1 / 365] [false] /\
  vectorized_iv (M := Ref.math) ([727.8] ++ [1]) ([22161] ++ [100]) ([22000] ++ [10000])
    ([31 / 365] ++ [1 / 365]) 0.04 ([true] ++ [false]) 1e-6 100 =
  vectorized_iv (M := Ref.math) [727.8] [22161] [22000] [31 / 365] 0.04 [true] 1e-6 100 ++
  vectorized_iv (M := Ref.math) [1] [100] [10000] [1 / 365] 0.04 [false] 1e-6 100.
Proof.
  assert (H1 : inputs_of_length 1 [727.8] [22161] [22000] [31 / 365] [true])
    by (repeat split; reflexivity).
  assert (H2 : inputs_of_length 1 [1] [100] [10000] [1 / 365] [false])
    by (repeat split; reflexivity).
  split; [exact H1|]. split; [exact H2|].
  exact (newton_batches_concatenate (M := Ref.math) [727.8] [22161] [22000] [31 / 365]
           [1] [100] [10000] [1 / 365] [true] [false] 0.04 1e-6 1 1 100 H1 H2).
Defined.

(** X3. A larger iteration budget never changes a solved row of
    [vectorized_iv]: an entry that is a number under budget [k] is the same
    number under every budget [k + j]; and when no row is left active under
    budget [k], the whole array is the same under every larger budget. Only
    sentinel entries can change when [max_iter] is raised. *)
Theorem newton_budget_stable {M : MathLib} (market_price S K T : list float)
  (r : float) (is_call : list bool) (tol : float) (n k j : nat) :
  inputs_of_length n market_price S K T is_call ->
  (forall i, (i < n)%nat ->
     nth i (vectorized_iv market_price S K T r is_call tol k) nan <> nan ->
     nth i (vectorized_iv market_price S K T r is_call tol (k + j)) nan =
     nth i (vectorized_iv market_price S K T r is_call tol k) nan) /\
  (any (st_active (vectorized_iv_state market_price S K T r is_call tol k)) = false ->
   vectorized_iv market_price S K T r is_call tol (k + j) =
   vectorized_iv market_price S K T r is_call tol k).
Proof.
  intros Hin. split.
  - intros i Hi.
    rewrite !(vectorized_iv_entry market_price S K T r is_call tol n Hin) by exact Hi.
    intros Hne. unfold newton_row_run at 1.
    rewrite Nat.add_comm, Nat.iter_add.
    fold (newton_row_run (nth i market_price 0) (nth i S 0) (nth i K 0) (nth i T 0) r
            (nth i is_call false) tol k).
    rewrite (row_settled _ _ _ _ _ _ _ j _ (newton_row_run_inv _ _ _ _ _ _ _ k) Hne).
    reflexivity.
  - intros Hany. unfold vectorized_iv, vectorized_iv_state.
    rewrite nr_loop_add. rewrite (nr_loop_settled _ _ _ _ _ _ _ j _ Hany). reflexivity.
Qed.

Lemma newton_budget_stable_witness :
  inputs_of_length 2 [727.8; 1] [22161; 100] [22000; 10000] [31 / 365; 1 / 365]
    [true; true] /\
  nth 0 (vectorized_iv (M := Ref.math) [727.8; 1] [22161; 100] [22000; 10000]
           [31 / 365; 1 / 365] 0.04 [true; true] 1e-6 (10 + 90)) nan =
  nth 0 (vectorized_iv (M := Ref.math) [727.8; 1] [22161; 100] [22000; 10000]
           [31 / 365; 1 / 365] 0.04 [true; true] 1e-6 10) nan.
Proof.
  assert (Hin : inputs_of_length 2 [727.8; 1] [22161; 100] [22000; 10000]
                  [31 / 365; 1 / 365] [true; true])
    by (repeat split; reflexivity).
  split; [exact Hin|].
  apply (proj1 (newton_budget_stable (M := Ref.math) [727.8; 1] [22161; 100]
                  [22000; 10000] [31 / 365; 1 / 365] 0.04 [true; true] 1e-6 2 10 90 Hin)
           0%nat).
  - lia.
  - intros H. apply (f_equal is_nan) in H. vm_compute in H. discriminate H.
Defined.



(** X5. [vectorized_iv] never returns a volatility outside (0, 10]: every
    entry of the returned array is the sentinel nan or a number [v] with
    [0 < v] and [v <= 10], for every input, tolerance and budget. *)
Theorem newton_output_range {M : MathLib} (market_price S K T : list float)
  (r : float) (is_call : list bool) (tol : float) (n max_iter i : nat) :
  inputs_of_length n market_price S K T is_call ->
  (i < n)%nat ->
  let v := nth i (vectorized_iv market_price S K T r is_call tol max_iter) nan in
  v = nan \/ ((0 <? v) = true /\ (v <=? 10) = true).
Proof.
  intros Hin Hi v. unfold v.
  rewrite (vectorized_iv_entry market_price S K T r is_call tol n Hin max_iter i Hi).
  apply newton_row_run_range.
Qed.

Lemma newton_output_range_witness :
  inputs_of_length 2 [727.8; 1] [22161; 100] [22000; 10000] [31 / 365; 1 / 365]
    [true; true] /\
  (nth 0 (vectorized_iv (M := Ref.math) [727.8; 1] [22161; 100] [22000; 10000]
            [31 / 365; 1 / 365] 0.04 [true; true] 1e-6 100) nan = nan \/
   (0 <? nth 0 (vectorized_iv (M := Ref.math) [727.8; 1] [22161; 100] [22000; 10000]
                  [31 / 365; 1 / 365] 0.04 [true; true] 1e-6 100) nan) = true /\
   (nth 0 (vectorized_iv (M := Ref.math) [727.8; 1] [22161; 100] [22000; 10000]
             [31 / 365; 1 / 365] 0.04 [true; true] 1e-6 100) nan <=? 10) = true).
Proof.
  assert (Hin : inputs_of_length 2 [727.8; 1] [22161; 100] [22000; 10000]
                  [31 / 365; 1 / 365] [true; true])
    by (repeat split; reflexivity).
  split; [exact Hin|].
  apply (newton_output_range (M := Ref.math) [727.8; 1] [22161; 100] [22000; 10000]
           [31 / 365; 1 / 365] 0.04 [true; true] 1e-6 2 100 0 Hin).
  lia.
Defined.

(** X6. A row whose market price is nan is never solved by the Newton
    solvers: no sigma passes the convergence test against a nan price, so
    [vectorized_iv] returns the sentinel for the row under every budget, and
    the scalar [implied_volatility] of VI.py, the strike being nonzero, ends
    in ValueError. *)
Theorem nan_price_never_solved {M : MathLib} (market_price S K T : list float)
  (r : float) (is_call : list bool) (tol : float) (n max_iter i : nat) :
  inputs_of_length n market_price S K T is_call ->
  (i < n)%nat ->
  nth i market_price 0 = nan ->
  nth i (vectorized_iv market_price S K T r is_call tol max_iter) nan = nan /\
  ((nth i K 0 =? 0) = false ->
   implied_volatility nan (nth i S 0) (nth i K 0) (nth i T 0) r (nth i is_call false)
     tol max_iter = Raise ValueError).
Proof.
  intros Hin Hi Hnan. split.
  - rewrite (vectorized_iv_entry market_price S K T r is_call tol n Hin max_iter i Hi).
    rewrite Hnan. unfold newton_row_run. apply row_run_nan_price.
  - intros HK. unfold implied_volatility. apply iv_loop_nan_price. exact HK.
Qed.

Lemma nan_price_never_solved_witness :
  inputs_of_length 2 [727.8; nan] [22161; 100] [22000; 110] [31 / 365; 0.5]
    [true; false] /\
  nth 1 (vectorized_iv (M := Ref.math) [727.8; nan] [22161; 100] [22000; 110]
           [31 / 365; 0.5] 0.04 [true; false] 1e-6 100) nan = nan.
Proof.
  assert (Hin : inputs_of_length 2 [727.8; nan] [22161; 100] [22000; 110]
                  [31 / 365; 0.5] [true; false])
    by (repeat split; reflexivity).
  split; [exact Hin|].
  apply (proj1 (nan_price_never_solved (M := Ref.math) [727.8; nan] [22161; 100]
                  [22000; 110] [31 / 365; 0.5] 0.04 [true; false] 1e-6 2 100 1 Hin
                  (le_n 2) eq_refl)).
Defined.

(** X7. A larger budget never changes what the scalar solver of VI.py
    returns: when [implied_volatility] returns [v] with [max_iter = k], it
    returns [v] with every [max_iter = k + j]. *)
Theorem scalar_budget_monotone {M : MathLib} (market_price S K T r : float)
  (is_call : bool) (tol : float) (k j : nat) (v : float) :
  implied_volatility market_price S K T r is_call tol k = Ret v ->
  implied_volatility market_price S K T r is_call tol (k + j) = Ret v.
Proof.
  unfold implied_volatility. intros H.
  apply iv_loop_more_budget. exact H.
Qed.

Lemma scalar_budget_monotone_witness :
  exists v,
    implied_volatility (M := Ref.math) 727.8 22161 22000 (31 / 365) 0.04 true 1e-6 10 =
    Ret v /\
    implied_volatility (M := Ref.math) 727.8 22161 22000 (31 / 365) 0.04 true 1e-6
      (10 + 90) = Ret v.
Proof.
  assert (H : exists v,
             implied_volatility (M := Ref.math) 727.8 22161 22000 (31 / 365) 0.04 true
               1e-6 10 = Ret v)
    by (vm_compute; eexists; reflexivity).
  destruct H as [v Hv]. exists v. split; [exact Hv|].
  exact (scalar_budget_monotone (M := Ref.math) 727.8 22161 22000 (31 / 365) 0.04 true
           1e-6 10 90 v Hv).
Defined.

(** ** [main] of calculate_vi_2024.py *)





(** ** The chunks of [main] in compute_greeks.py *)

Section ChunkFacts.
Context {A : Type}.
Variable c : nat.
Hypothesis Hc : (0 < c)%nat.

(** The chunks are the list cut into consecutive pieces: nothing is lost,
    repeated or reordered; every piece is non-empty and has at most [c]
    rows, and every piece but the last has exactly [c]. *)
Lemma chunks_list_partition (n : nat) :
  forall all_args : list A, length all_args = n ->
    concat (chunks_list c all_args) = all_args /\
    Forall (fun ch => (0 < length ch <= c)%nat) (chunks_list c all_args) /\
    (forall j, (Datatypes.S j < length (chunks_list c all_args))%nat ->
               length (nth j (chunks_list c all_args) []) = c).
Proof.
  induction n as [n IH] using lt_wf_ind. intros all_args Hn.
  destruct all_args as [|a rest] eqn:Hargs.
  - rewrite (chunks_list_nil c Hc). repeat split; [constructor | simpl; lia].
  - rewrite <- Hargs in *.
    assert (Hne : all_args <> []) by (rewrite Hargs; discriminate).
    assert (Hpos : (0 < length all_args)%nat) by (rewrite Hargs; simpl; lia).
    rewrite (chunks_list_cons c all_args Hc Hne).
    destruct (IH (length (skipn c all_args))
                ltac:(rewrite length_skipn; lia) (skipn c all_args) eq_refl)
      as (Hcat & Hall & Hfull).
    split; [|split].
    + cbn [concat]. rewrite Hcat. apply firstn_skipn.
    + constructor; [|exact Hall]. rewrite length_firstn. lia.
    + intros [|j] Hj; cbn [nth length] in *.
      * rewrite length_firstn.
        destruct (Nat.lt_ge_cases c (length all_args)) as [|Hge]; [lia|].
        rewrite (skipn_all2 all_args Hge), (chunks_list_nil c Hc) in Hj.
        simpl in Hj. lia.
      * apply Hfull. lia.
Qed.
End ChunkFacts.


(** X9. The chunk list [main] of compute_greeks.py builds,
    [[all_args[i:i+c] for i in range(0, len(all_args), c)]], cuts the rows
    into consecutive pieces for every chunk size [c > 0]: joined in order
    the chunks give back the rows, none lost, repeated or moved; no chunk is
    empty, none has more than [c] rows, and every chunk but the last has
    exactly [c]. *)
Theorem chunks_partition {A : Type} (c : nat) (all_args : list A) :
  (0 < c)%nat ->
  exists chunks,
    chunks_of c all_args = Ret chunks /\
    concat chunks = all_args /\
    Forall (fun ch => (0 < length ch <= c)%nat) chunks /\
    (forall j, (Datatypes.S j < length chunks)%nat -> length (nth j chunks []) = c).
Proof.
  intros Hc. exists (chunks_list c all_args).
  split; [apply chunks_of_list; exact Hc|].
  apply (chunks_list_partition c Hc (length all_args) all_args eq_refl).
Qed.

Lemma chunks_partition_witness :
  exists chunks,
    chunks_of 2 [10; 20; 30; 40; 50]%nat = Ret chunks /\
    concat chunks = [10; 20; 30; 40; 50]%nat.
Proof.
  destruct (chunks_partition 2 [10; 20; 30; 40; 50]%nat (le_S _ _ (le_n 1)))
    as (chunks & Hch & Hcat & _).
  exists chunks. split; [exact Hch | exact Hcat].
Defined.

(** ** [main] of compute_greeks.py, row by row *)

Lemma mapM_nth {A B : Type} (f : A -> outcome B) (da : A) (db : B) (l : list A)
  (bs : list B) :
  mapM f l = Ret bs ->
  forall i, (i < length l)%nat -> f (nth i l da) = Ret (nth i bs db).
Proof.
  revert bs; induction l as [|a l IH]; intros bs H i Hi; simpl in *; [lia|].
  destruct (f a) as [b|e] eqn:Hfa; simpl in H; [|discriminate].
  destruct (mapM f l) as [r|e]; simpl in H; [|discriminate].
  injection H as <-. destruct i as [|i]; simpl; [exact Hfa|].
  apply (IH r eq_refl). lia.
Qed.

(** The IV stage of [main] is the per-row solver over the rows in order. *)
Lemma main_iv_rows {M : MathLib} {R : RootFinder} (SUB_CHUNK W : nat) (sched : list nat)
  (all_args : list iv_args) :
  (0 < SUB_CHUNK)%nat -> (0 < W)%nat ->
  Permutation sched (seq 0 ((length all_args + SUB_CHUNK - 1) / SUB_CHUNK)) ->
  main_iv SUB_CHUNK W sched all_args = mapM _solve_iv all_args.
Proof.
  intros Hc HW Hperm. unfold main_iv.
  rewrite (chunks_of_list SUB_CHUNK all_args Hc). cbn [bind].
  rewrite (pool_imap_ordered _solve_iv_chunk W (chunks_list SUB_CHUNK all_args) sched HW)
    by (rewrite chunks_list_length; exact Hperm).
  cbn [bind].
  rewrite (place_results_chunks SUB_CHUNK Hc (length all_args) all_args [] 0 eq_refl)
    by reflexivity.
  destruct (mapM _solve_iv all_args); reflexivity.
Qed.

Lemma zip_args_length (n : nat) (S K T_arr : list float) (r q : float)
  (mkt_price : list float) (is_call : list bool) :
  columns_of_length n S K T_arr mkt_price is_call ->
  length (zip_args n S K T_arr r q mkt_price is_call) = n.
Proof.
  intros (HS & HK & HT & Hm & Hc). unfold zip_args, iv_args.
  rewrite !length_combine, !repeat_length, HS, HK, HT, Hm, Hc. lia.
Qed.

Lemma zip_args_nth (n : nat) (S K T_arr : list float) (r q : float)
  (mkt_price : list float) (is_call : list bool) (i : nat) :
  columns_of_length n S K T_arr mkt_price is_call -> (i < n)%nat ->
  nth i (zip_args n S K T_arr r q mkt_price is_call) (0, 0, 0, r, q, 0, false) =
  (nth i S 0, nth i K 0, nth i T_arr 0, r, q, nth i mkt_price 0, nth i is_call false).
Proof.
  intros (HS & HK & HT & Hm & Hc) Hi. unfold zip_args, iv_args.
  rewrite !combine_nth;
    rewrite ?length_combine, ?repeat_length; try lia.
  rewrite !nth_repeat_any by exact Hi. reflexivity.
Qed.

(** Row [i] of the Greeks: the closed forms under the combined mask. *)
Lemma compute_greeks_row {M : MathLib} (S K T : list float) (r q : float)
  (sigma : list float) (is_call : list bool) (n i : nat) :
  greek_inputs_of_length n S K T sigma is_call -> (i < n)%nat ->
  greeks_at (compute_greeks_vectorized S K T r q sigma is_call) i =
  if greeks_valid (nth i S 0) (nth i K 0) (nth i T 0) (nth i sigma nan)
  then greeks_formulas (nth i S 0) (nth i K 0) (nth i T 0) r q (nth i sigma nan)
         (nth i is_call false)
  else (nan, nan, nan, nan, nan).
Proof.
  intros Hin Hi.
  pose proof (valid_mask_length S K T sigma is_call n Hin) as Hv.
  rewrite (compute_greeks_normal S K T r q sigma is_call n Hin).
  rewrite <- (valid_mask_nth S K T sigma is_call n Hin i Hi).
  destruct (negb (any (valid_mask S K T sigma))) eqn:Hany.
  - apply negb_true_iff in Hany. rewrite (any_false_nth _ i Hany).
    unfold greeks_at, all_nan. cbn [g_delta g_gamma g_vega g_theta g_rho].
    rewrite (nth_repeat_any nan nan n i Hi). reflexivity.
  - unfold greeks_at, filled. cbn [g_delta g_gamma g_vega g_theta g_rho].
    rewrite !(mask_put_nth _ _ n i Hv).
    destruct (nth i (valid_mask S K T sigma) false); reflexivity.
Qed.

(** X10. [main] of compute_greeks.py, from the prepared columns of a frame of
    [n] rows: when the root-finder fails only with its numerical exceptions,
    the run ends without an exception for every chunk size, worker count and
    completion order; the IV column has [n] entries and entry [i] is the
    per-row solve of row [i] with the module's rate and dividend yield; row
    [i] of the Greeks is the closed forms at that IV when the row is valid
    and five sentinels otherwise; Moneyness is S / K. A row with invalid
    geometry has the sentinel as IV and as all five Greeks. *)
Theorem main_rows {M : MathLib} {R : RootFinder} (SUB_CHUNK W : nat) (sched : list nat)
  (n : nat) (S K T_arr mkt_price : list float) (is_call : list bool) :
  raises_numerical_only R ->
  columns_of_length n S K T_arr mkt_price is_call ->
  (0 < SUB_CHUNK)%nat -> (0 < W)%nat ->
  Permutation sched (seq 0 ((n + SUB_CHUNK - 1) / SUB_CHUNK)) ->
  exists out,
    main_columns SUB_CHUNK W sched n S K T_arr mkt_price is_call = Ret out /\
    length (out_IV out) = n /\
    forall i, (i < n)%nat ->
      let row := (nth i S 0, nth i K 0, nth i T_arr 0, RISK_FREE_RATE, DIVIDEND_YIELD,
                  nth i mkt_price 0, nth i is_call false) in
      let iv := nth i (out_IV out) nan in
      nth i (out_Moneyness out) nan = nth i S 0 / nth i K 0 /\
      _solve_iv row = Ret iv /\
      greeks_at (out_greeks out) i =
        (if greeks_valid (nth i S 0) (nth i K 0) (nth i T_arr 0) iv
         then greeks_formulas (nth i S 0) (nth i K 0) (nth i T_arr 0)
                RISK_FREE_RATE DIVIDEND_YIELD iv (nth i is_call false)
         else (nan, nan, nan, nan, nan)) /\
      (invalid_geometry row = true ->
       iv = nan /\ greeks_at (out_greeks out) i = (nan, nan, nan, nan, nan)).
Proof.
  intros HR Hcols Hc HW Hperm.
  pose proof (zip_args_length n S K T_arr RISK_FREE_RATE DIVIDEND_YIELD mkt_price is_call
                Hcols) as Hlen.
  unfold main_columns. cbv zeta.
  rewrite (main_iv_rows SUB_CHUNK W sched _ Hc HW) by (rewrite Hlen; exact Hperm).
  destruct (mapM_total _solve_iv
              (zip_args n S K T_arr RISK_FREE_RATE DIVIDEND_YIELD mkt_price is_call))
    as (iv_arr & Hiv & Hivlen).
  { intros a _. apply solve_iv_total. exact HR. }
  rewrite Hiv. cbn [bind]. eexists. split; [reflexivity|].
  rewrite Hlen in Hivlen.
  split; [exact Hivlen|]. intros i Hi. cbv zeta.
  cbn [out_IV out_Moneyness out_greeks].
  set (row := (nth i S 0, nth i K 0, nth i T_arr 0, RISK_FREE_RATE, DIVIDEND_YIELD,
               nth i mkt_price 0, nth i is_call false)).
  set (iv := nth i iv_arr nan).
  destruct Hcols as (HS & HK & HT & Hm & Hcl).
  assert (Hrow : _solve_iv row = Ret iv).
  { pose proof (mapM_nth _solve_iv
                  (0, 0, 0, RISK_FREE_RATE, DIVIDEND_YIELD, 0, false) nan _ _ Hiv i
                  ltac:(rewrite Hlen; exact Hi)) as Hn.
    rewrite zip_args_nth in Hn by (repeat split; assumption). exact Hn. }
  assert (Hg : greeks_at
                 (compute_greeks_vectorized S K T_arr RISK_FREE_RATE DIVIDEND_YIELD iv_arr
                    is_call) i =
               if greeks_valid (nth i S 0) (nth i K 0) (nth i T_arr 0) iv
               then greeks_formulas (nth i S 0) (nth i K 0) (nth i T_arr 0)
                      RISK_FREE_RATE DIVIDEND_YIELD iv (nth i is_call false)
               else (nan, nan, nan, nan, nan)).
  { apply (compute_greeks_row S K T_arr _ _ iv_arr is_call n i); [|exact Hi].
    repeat split; assumption. }
  split; [|split; [exact Hrow|split; [exact Hg|]]].
  - unfold vdiv. rewrite (nth_vmap2 div 0 0 nan) by lia. reflexivity.
  - intros Hinv. rewrite (solve_iv_invalid row Hinv) in Hrow.
    injection Hrow as Hnan. split; [symmetry; exact Hnan|].
    rewrite Hg, <- Hnan. reflexivity.
Qed.

Lemma main_rows_witness :
  exists out,
    main_columns (M := Ref.math) (R := Ref.finder) 1 2 [1; 0]%nat 2
      [22161; 100] [22000; 100] [31 / 365; 0] [727.8; 10] [true; true] = Ret out /\
    length (out_IV out) = 2%nat.
Proof.
  assert (Hcols : columns_of_length 2 [22161; 100] [22000; 100] [31 / 365; 0] [727.8; 10]
                    [true; true])
    by (repeat split; reflexivity).
  assert (Hp : Permutation [1; 0]%nat (seq 0 ((2 + 1 - 1) / 1)))
    by (apply perm_swap).
  destruct (main_rows (M := Ref.math) (R := Ref.finder) 1 2 [1; 0]%nat 2
              [22161; 100] [22000; 100] [31 / 365; 0] [727.8; 10] [true; true]
              ref_finder_numerical Hcols (le_n 1) (le_S _ _ (le_n 1)) Hp)
    as (out & Hout & Hlen & _).
  exists out. split; [exact Hout | exact Hlen].
Defined.

(** ** A nan market price and the bracketed solver *)

(** X11. The geometry guard of [_solve_iv] does not catch a nan market
    price: [nan <= 0] is false, so a row with T > 0, S > 0, K > 0 and a nan
    market price passes the guard; its price difference is nan at every
    sigma, the product test [f_lo * f_hi > 0] is false as well, and the
    root-finder is called on a function that is nan everywhere. What the row
    gets is what the handler makes of that call: the value the root-finder
    returns, or the sentinel when it raises ValueError or RuntimeError. *)
Theorem solve_iv_nan_price {M : MathLib} {R : RootFinder} (S K T r q : float)
  (is_call : bool) :
  (0 <? T) = true -> (0 <? S) = true -> (0 <? K) = true ->
  invalid_geometry (S, K, T, r, q, nan, is_call) = false /\
  (forall sig, price_diff (S, K, T, r, q, nan, is_call) sig = nan) /\
  _solve_iv (S, K, T, r, q, nan, is_call) =
    try_except (brentq (price_diff (S, K, T, r, q, nan, is_call)) IV_LOWER IV_UPPER 100 1e-8)
      nan.
Proof.
  intros HT HS HK.
  assert (Hg : invalid_geometry (S, K, T, r, q, nan, is_call) = false).
  { unfold invalid_geometry. cbn [arg_S arg_K arg_T arg_mkt_price].
    rewrite (pos_not_leb_zero T HT), (pos_not_leb_zero S HS), (pos_not_leb_zero K HK).
    reflexivity. }
  assert (Hd : forall sig, price_diff (S, K, T, r, q, nan, is_call) sig = nan).
  { intros sig. unfold price_diff. cbn [arg_S arg_K arg_T arg_r arg_q arg_mkt_price arg_is_call].
    apply sub_nan_r. }
  split; [exact Hg | split; [exact Hd|]].
  rewrite (solve_iv_valid _ Hg), !Hd. reflexivity.
Qed.

Lemma solve_iv_nan_price_witness :
  _solve_iv (M := Ref.math) (R := Ref.finder) (100, 110, 0.5, 0.068, 0, nan, true) =
  try_except (brentq (RootFinder := Ref.finder)
                (price_diff (M := Ref.math) (100, 110, 0.5, 0.068, 0, nan, true))
                IV_LOWER IV_UPPER 100 1e-8) nan.
Proof.
  exact (proj2 (proj2 (solve_iv_nan_price (M := Ref.math) (R := Ref.finder)
                         100 110 0.5 0.068 0 true eq_refl eq_refl eq_refl))).
Defined.

(** ** Signs of the Greeks *)

Lemma round_aux_sign_all s m e l :
  match binary_round_aux prec emax s m e l with
  | S754_zero s' | S754_infinity s' | S754_finite s' _ _ => s' = s
  | S754_nan => True
  end.
Proof.
  unfold binary_round_aux.
  destruct (shr_fexp prec emax m e l) as [mrs' e'].
  destruct (shr_fexp prec emax _ e' loc_Exact) as [mrs'' e''].
  destruct (shr_m mrs''); auto.
  match goal with |- context [if ?b then _ else _] => destruct b end; reflexivity.
Qed.

Lemma sign_clear_not_neg x : sf_sign_clear x -> sf_not_neg x.
Proof. destruct x; simpl; auto. Qed.

Lemma mul_not_neg x y :
  sf_not_neg (Prim2SF x) -> sf_not_neg (Prim2SF y) -> sf_not_neg (Prim2SF (x * y)).
Proof.
  rewrite mul_spec.
  destruct (Prim2SF x) as [sx|sx| |sx mx ex], (Prim2SF y) as [sy|sy| |sy my ey];
    simpl; intros Hx Hy; subst; auto.
  match goal with
  | |- context [binary_round_aux ?p ?em ?s ?m ?e ?l] =>
      pose proof (round_aux_sign_all s m e l) as Hs;
      destruct (binary_round_aux p em s m e l)
  end; simpl; auto.
Qed.

Lemma mul_sign_clear x y :
  sf_sign_clear (Prim2SF x) -> sf_sign_clear (Prim2SF y) ->
  sf_sign_clear (Prim2SF (x * y)).
Proof.
  rewrite mul_spec.
  destruct (Prim2SF x) as [sx|sx| |sx mx ex], (Prim2SF y) as [sy|sy| |sy my ey];
    simpl; intros Hx Hy; subst; auto.
  match goal with
  | |- context [binary_round_aux ?p ?em ?s ?m ?e ?l] =>
      pose proof (round_aux_sign_all s m e l) as Hs;
      destruct (binary_round_aux p em s m e l)
  end; simpl; auto.
Qed.

Lemma div_not_neg x y :
  sf_not_neg (Prim2SF x) -> sf_sign_clear (Prim2SF y) -> sf_not_neg (Prim2SF (x / y)).
Proof.
  rewrite div_spec.
  destruct (Prim2SF x) as [sx|sx| |sx mx ex], (Prim2SF y) as [sy|sy| |sy my ey];
    simpl; intros Hx Hy; subst; auto.
  unfold SF64div, SFdiv.
  destruct (SFdiv_core_binary prec emax (Z.pos mx) ex (Z.pos my) ey) as [[mz ez] lz].
  pose proof (round_aux_sign_all (xorb false false) mz ez lz) as Hs.
  destruct (binary_round_aux prec emax (xorb false false) mz ez lz); simpl; auto.
Qed.

Lemma sqrt_sign_clear x : (0 <? x) = true -> sf_sign_clear (Prim2SF (sqrt x)).
Proof.
  rewrite ltb_spec, sqrt_spec. change (Prim2SF 0) with (S754_zero false).
  intros H. apply SFltb_zero_pos in H.
  destruct (Prim2SF x) as [s|s| |s m e]; simpl in H; try tauto;
    destruct s; try tauto; [reflexivity|].
  unfold SF64sqrt, SFsqrt.
  destruct (SFsqrt_core_binary prec emax (Z.pos m) e) as [[mz ez] lz].
  pose proof (round_aux_sign_all false mz ez lz) as Hs.
  destruct (binary_round_aux prec emax false mz ez lz); simpl; auto.
Qed.

Lemma pos_sign_clear x : (0 <? x) = true -> sf_sign_clear (Prim2SF x).
Proof.
  rewrite ltb_spec. change (Prim2SF 0) with (S754_zero false).
  intros H. apply SFltb_zero_pos in H.
  destruct (Prim2SF x) as [s|s| |s m e]; simpl in *; try tauto; destruct s; tauto.
Qed.

Lemma leb_zero_not_neg x : (0 <=? x) = true -> sf_not_neg (Prim2SF x).
Proof.
  rewrite leb_spec. change (Prim2SF 0) with (S754_zero false).
  destruct (Prim2SF x) as [s|s| |s m e]; simpl; auto; destruct s; auto; discriminate.
Qed.

Lemma never_negative_not_neg (f : float -> float) (x : float) :
  never_negative f -> sf_not_neg (Prim2SF (f x)).
Proof.
  intros Hf. destruct (Hf x) as [H|H].
  - unfold is_nan in H. rewrite eqb_spec in H.
    destruct (Prim2SF (f x)) as [s|s| |s m e] eqn:E; simpl; auto;
      rewrite SFeqb_refl in H by discriminate; discriminate H.
  - apply leb_zero_not_neg. exact H.
Qed.

Lemma not_neg_cases x : sf_not_neg (Prim2SF x) -> x = nan \/ (0 <=? x) = true.
Proof.
  rewrite leb_spec. change (Prim2SF 0) with (S754_zero false).
  destruct (Prim2SF x) as [s|s| |s m e] eqn:E; simpl; intros H.
  - right. destruct s; reflexivity.
  - right. rewrite H. reflexivity.
  - left. apply Prim2SF_inj. rewrite E. reflexivity.
  - right. rewrite H. reflexivity.
Qed.

(** A square is not below zero. *)
Lemma square_not_neg x : sf_not_neg (Prim2SF (x * x)).
Proof.
  rewrite mul_spec.
  destruct (Prim2SF x) as [s|s| |s m e]; simpl; auto; try (destruct s; reflexivity).
  match goal with
  | |- context [binary_round_aux ?p ?em ?sg ?mm ?ee ?l] =>
      pose proof (round_aux_sign_all sg mm ee l) as Hs;
      destruct (binary_round_aux p em sg mm ee l)
  end; simpl; auto; rewrite Hs; destruct s; reflexivity.
Qed.

Lemma ref_exp_never_negative : never_negative Ref.exp.
Proof.
  intros x. unfold Ref.exp.
  destruct (is_nan x); [left; reflexivity|].
  destruct (x <? -746); [right; reflexivity|].
  destruct (710 <? x); [right; reflexivity|].
  cbn [Ref.repeat_sq].
  match goal with |- context [?a * ?a] => set (v := a) end.
  destruct (not_neg_cases _ (square_not_neg v)) as [H|H]; [left; rewrite H; reflexivity|].
  right. exact H.
Qed.

Lemma ref_pdf_never_negative : never_negative Ref.pdf.
Proof.
  intros x. unfold Ref.pdf.
  assert (H : sf_not_neg (Prim2SF (0.3989422804014327 * Ref.exp (- (x * x) / 2)))).
  { apply mul_not_neg; [vm_compute; reflexivity|].
    apply never_negative_not_neg. exact ref_exp_never_negative. }
  destruct (not_neg_cases _ H) as [E|E]; [left; rewrite E; reflexivity | right; exact E].
Qed.

Section Signs.
Context {M : MathLib}.
Hypothesis Hexp : never_negative np_exp.
Hypothesis Hpdf : never_negative norm_pdf.

Lemma gamma_formula_not_neg (S K T r q sigma : float) :
  greeks_valid S K T sigma = true ->
  sf_not_neg (Prim2SF (gamma_formula S K T r q sigma)).
Proof.
  unfold greeks_valid. rewrite !andb_true_iff. intros ((((_ & HT) & HS) & _) & Hsig).
  unfold gamma_formula. apply div_not_neg.
  - apply mul_not_neg; apply never_negative_not_neg; assumption.
  - apply mul_sign_clear; [apply mul_sign_clear; apply pos_sign_clear; assumption|].
    apply sqrt_sign_clear. exact HT.
Qed.

Lemma vega_formula_not_neg (S K T r q sigma : float) :
  greeks_valid S K T sigma = true ->
  sf_not_neg (Prim2SF (vega_formula S K T r q sigma)).
Proof.
  unfold greeks_valid. rewrite !andb_true_iff. intros ((((_ & HT) & HS) & _) & Hsig).
  unfold vega_formula. apply div_not_neg; [|vm_compute; reflexivity].
  repeat apply mul_not_neg.
  - apply sign_clear_not_neg, pos_sign_clear. exact HS.
  - apply never_negative_not_neg. exact Hexp.
  - apply never_negative_not_neg. exact Hpdf.
  - apply sign_clear_not_neg, sqrt_sign_clear. exact HT.
Qed.
End Signs.

(** X12. Gamma and vega do not depend on the option type: for the same S,
    K, T, r, q and sigma arrays, [compute_greeks_vectorized] returns the
    same gamma array and the same vega array whatever the [is_call] array
    is, so a call and a put on the same row have the same gamma and vega. *)
Theorem gamma_vega_call_put {M : MathLib} (S K T : list float) (r q : float)
  (sigma : list float) (is_call is_call' : list bool) (n : nat) :
  greek_inputs_of_length n S K T sigma is_call ->
  length is_call' = n ->
  g_gamma (compute_greeks_vectorized S K T r q sigma is_call) =
    g_gamma (compute_greeks_vectorized S K T r q sigma is_call') /\
  g_vega (compute_greeks_vectorized S K T r q sigma is_call) =
    g_vega (compute_greeks_vectorized S K T r q sigma is_call').
Proof.
  intros Hin Hc'.
  assert (Hin' : greek_inputs_of_length n S K T sigma is_call').
  { destruct Hin as (HS & HK & HT & Hsig & _). repeat split; assumption. }
  rewrite (compute_greeks_normal S K T r q sigma is_call n Hin).
  rewrite (compute_greeks_normal S K T r q sigma is_call' n Hin').
  destruct (negb (any (valid_mask S K T sigma))); split; reflexivity.
Qed.

Lemma gamma_vega_call_put_witness :
  g_gamma (compute_greeks_vectorized (M := Ref.math) [22161; 100] [22000; 100]
             [31 / 365; 0.5] 0.068 0 [0.2352; nan] [true; false]) =
  g_gamma (compute_greeks_vectorized (M := Ref.math) [22161; 100] [22000; 100]
             [31 / 365; 0.5] 0.068 0 [0.2352; nan] [false; false]).
Proof.
  assert (Hin : greek_inputs_of_length 2 [22161; 100] [22000; 100] [31 / 365; 0.5]
                  [0.2352; nan] [true; false])
    by (repeat split; reflexivity).
  exact (proj1 (gamma_vega_call_put (M := Ref.math) [22161; 100] [22000; 100]
                  [31 / 365; 0.5] 0.068 0 [0.2352; nan] [true; false] [false; false] 2
                  Hin eq_refl)).
Defined.

(** X13. Gamma and vega are never negative, which is what the sanity
    checks printed by [main] expect: when the exponential and the normal
    density never return a negative value (each value is nan or at least
    zero), every entry of the gamma array and of the vega array of
    [compute_greeks_vectorized] is nan or at least zero. *)
Theorem gamma_vega_never_negative {M : MathLib} (S K T : list float) (r q : float)
  (sigma : list float) (is_call : list bool) (n i : nat) :
  never_negative np_exp -> never_negative norm_pdf ->
  greek_inputs_of_length n S K T sigma is_call ->
  (i < n)%nat ->
  let g := compute_greeks_vectorized S K T r q sigma is_call in
  (nth i (g_gamma g) nan = nan \/ (0 <=? nth i (g_gamma g) nan) = true) /\
  (nth i (g_vega g) nan = nan \/ (0 <=? nth i (g_vega g) nan) = true).
Proof.
  intros Hexp Hpdf Hin Hi g.
  pose proof (compute_greeks_row S K T r q sigma is_call n i Hin Hi) as Hrow.
  fold g in Hrow. unfold greeks_at in Hrow.
  destruct (greeks_valid (nth i S 0) (nth i K 0) (nth i T 0) (nth i sigma nan)) eqn:Hv.
  - unfold greeks_formulas in Hrow. injection Hrow as _ Hg Hve _ _.
    rewrite Hg, Hve. split; apply not_neg_cases.
    + apply gamma_formula_not_neg; assumption.
    + apply vega_formula_not_neg; assumption.
  - injection Hrow as _ Hg Hve _ _. rewrite Hg, Hve. split; left; reflexivity.
Qed.

Lemma gamma_vega_never_negative_witness :
  nth 0 (g_gamma (compute_greeks_vectorized (M := Ref.math) [22161; 100] [22000; 100]
                    [31 / 365; 0.5] 0.068 0 [0.2352; nan] [true; false])) nan = nan \/
  (0 <=? nth 0 (g_gamma (compute_greeks_vectorized (M := Ref.math) [22161; 100]
                           [22000; 100] [31 / 365; 0.5] 0.068 0 [0.2352; nan]
                           [true; false])) nan) = true.
Proof.
  assert (Hin : greek_inputs_of_length 2 [22161; 100] [22000; 100] [31 / 365; 0.5]
                  [0.2352; nan] [true; false])
    by (repeat split; reflexivity).
  exact (proj1 (gamma_vega_never_negative (M := Ref.math) [22161; 100] [22000; 100]
                  [31 / 365; 0.5] 0.068 0 [0.2352; nan] [true; false] 2 0
                  ref_exp_never_negative ref_pdf_never_negative Hin
                  (le_S _ _ (le_n 1)))).
Defined.

(** ** The forward factor, pair by pair *)

Lemma where_nan_length (c : list bool) (a : list float) (n : nat) :
  length c = n -> length a = n -> length (where_nan c a) = n.
Proof. apply vmap2_length. Qed.

Lemma where_nan_nth (c : list bool) (a : list float) (n i : nat) :
  length c = n -> length a = n -> (i < n)%nat ->
  nth i (where_nan c a) nan = if nth i c false then nth i a nan else nan.
Proof.
  intros Hc Ha Hi. unfold where_nan.
  rewrite (nth_vmap2 _ false nan nan) by lia. reflexivity.
Qed.

(** X14. [compute_forward_factor] of backtesting/utils.py, pair by pair,
    for four arrays of one length [n]: both returned arrays have [n]
    entries; the forward volatility of pair [i] is the square root of its
    forward variance when [t2 - t1 > 1e-6] and the forward variance is
    strictly positive, and nan otherwise; the forward factor is
    [v1 / forward_vol - 1] when moreover the forward volatility is finite
    and above 1e-8, and nan otherwise. So expiries closer than 1e-6, an
    inverted term structure (forward variance not positive) and nan inputs
    all give nan, never an exception or a value. *)
Theorem forward_factor_rows (v1 t1 v2 t2 : list float) (n i : nat) :
  length v1 = n -> length t1 = n -> length v2 = n -> length t2 = n ->
  (i < n)%nat ->
  let out := compute_forward_factor v1 t1 v2 t2 in
  let dt := nth i t2 0 - nth i t1 0 in
  let fvar := forward_variance (nth i v1 0) (nth i t1 0) (nth i v2 0) (nth i t2 0) in
  length (fst out) = n /\ length (snd out) = n /\
  nth i (snd out) nan = (if (1e-6 <? dt) && (0 <? fvar) then sqrt fvar else nan) /\
  nth i (fst out) nan =
    (if (1e-6 <? dt) && (0 <? fvar) && isfinite (sqrt fvar) && (1e-8 <? sqrt fvar)
     then nth i v1 0 / sqrt fvar - 1 else nan).
Proof.
  intros H1 Ht1 H2 Ht2 Hi out dt fvar. unfold out, compute_forward_factor. cbv zeta.
  cbn [fst snd].
  set (dts := (t2 [-] t1)%vec).
  set (raw := ((map sq v2 [*] t2 [-] map sq v1 [*] t1) [/] dts)%vec).
  set (fvars := where_nan (map (fun x => 1e-6 <? x) dts) raw).
  set (fvols := where_nan (map (fun x => 0 <? x) fvars) (map sqrt fvars)).
  assert (Ldt : length dts = n) by (apply vmap2_length; assumption).
  assert (Lraw : length raw = n).
  { unfold raw, vdiv, vsub, vmul.
    repeat apply vmap2_length; rewrite ?length_map; assumption. }
  assert (Lfvar : length fvars = n)
    by (apply where_nan_length; rewrite ?length_map; assumption).
  assert (Lfvol : length fvols = n)
    by (apply where_nan_length; rewrite ?length_map; assumption).
  assert (Hdt : nth i dts 0 = dt).
  { unfold dts, vsub. rewrite (nth_vmap2 _ 0 0 0) by lia. reflexivity. }
  assert (Hraw : nth i raw nan = fvar).
  { unfold raw, vdiv, vsub, vmul.
    assert (La : length (vmap2 PrimFloat.mul (map sq v2) t2) = n)
      by (apply vmap2_length; rewrite ?length_map; assumption).
    assert (Lb : length (vmap2 PrimFloat.mul (map sq v1) t1) = n)
      by (apply vmap2_length; rewrite ?length_map; assumption).
    assert (Lc : length (vmap2 PrimFloat.sub (vmap2 PrimFloat.mul (map sq v2) t2)
                           (vmap2 PrimFloat.mul (map sq v1) t1)) = n)
      by (apply vmap2_length; assumption).
    rewrite (nth_vmap2 _ 0 0 nan) by lia.
    rewrite (nth_vmap2 PrimFloat.sub 0 0 0) by lia.
    rewrite !(nth_vmap2 PrimFloat.mul 0 0 0) by (rewrite ?length_map; lia).
    rewrite !(nth_map_lt sq 0 0) by lia.
    fold dts. rewrite Hdt. reflexivity. }
  assert (Hfvar : nth i fvars nan = if 1e-6 <? dt then fvar else nan).
  { unfold fvars. rewrite (where_nan_nth _ _ n i) by (rewrite ?length_map; assumption).
    rewrite (nth_map_lt (fun x => 1e-6 <? x) 0 false) by lia.
    rewrite Hdt, Hraw. reflexivity. }
  assert (Hfvol : nth i fvols nan =
                  if (1e-6 <? dt) && (0 <? fvar) then sqrt fvar else nan).
  { unfold fvols. rewrite (where_nan_nth _ _ n i) by (rewrite ?length_map; assumption).
    rewrite (nth_map_lt (fun x => 0 <? x) nan false) by lia.
    rewrite (nth_map_lt sqrt nan nan) by lia.
    rewrite Hfvar. destruct (1e-6 <? dt); [|reflexivity].
    destruct (0 <? fvar); reflexivity. }
  split; [|split; [exact Lfvol | split; [exact Hfvol|]]].
  - apply where_nan_length.
    + apply vmap2_length; rewrite length_map; exact Lfvol.
    + unfold vsubs, vdiv. rewrite length_map. apply vmap2_length; assumption.
  - rewrite (where_nan_nth _ _ n i);
      [| apply vmap2_length; rewrite length_map; exact Lfvol
       | unfold vsubs, vdiv; rewrite length_map; apply vmap2_length; assumption
       | exact Hi].
    rewrite (nth_vmap2 andb false false false) by (rewrite length_map; lia).
    rewrite (nth_map_lt isfinite nan false), (nth_map_lt (fun x => 1e-8 <? x) nan false)
      by lia.
    unfold vsubs, vdiv.
    rewrite (nth_map_lt (fun x => x - 1) nan nan)
      by (rewrite (vmap2_length PrimFloat.div v1 fvols n H1 Lfvol); exact Hi).
    rewrite (nth_vmap2 PrimFloat.div 0 nan nan) by lia.
    rewrite Hfvol.
    destruct ((1e-6 <? dt) && (0 <? fvar)); reflexivity.
Qed.

Lemma forward_factor_rows_witness :
  nth 1 (snd (compute_forward_factor [0.3; 0.2] [0.1; 0.2] [0.25; 0.2] [0.3; 0.2])) nan =
  nan.
Proof.
  exact (proj1 (proj2 (proj2 (forward_factor_rows [0.3; 0.2] [0.1; 0.2] [0.25; 0.2]
                                [0.3; 0.2] 2 1 eq_refl eq_refl eq_refl eq_refl (le_n 2))))).
Defined.
